(** * polledHiC: [scripts/sum_matrices.py]

    A shallow embedding of the script that discovers the [trio] directories,
    writes [metadata.tsv], creates the per-individual sub-directories,
    collects the paths of the HiC matrices per resolution and protocol, and
    shells out to [hicSumMatrices].

    Python [str] values are modelled by [string] (names and paths are taken
    to be made of one-byte characters; the order on them is the code point
    order, as for Python strings).  The file system, the standard output and
    the shell are explicit: a listing is a list of names, a file is the list
    of the strings written to it, and [os.system] appends a command line to
    a trace. *)

From Stdlib Require Import String Ascii NArith DecimalString.
From stdpp Require Import base option list strings sorting gmap.


(** ** Python values and built-ins used by the script *)

Module Py.

(** The exceptions the script can meet. *)
Inductive exn : Type :=
| IndexError   (* a subscript out of range: [tmp[1]], [tmp[2]], ... *)
| TypeError    (* [None[:-1]] *)
| OSError.     (* [os.listdir] on a missing directory *)

(** How a call ends. *)
Inductive result (A : Type) : Type :=
| Returned (a : A)
| Raised (e : exn).
Arguments Returned {A} a.
Arguments Raised {A} e.

Definition TAB : ascii := "009"%char.
Definition NL : ascii := "010"%char.
Definition tab : string := String TAB "".
Definition nl : string := String NL "".

(** [s.startswith(p)] *)
Fixpoint startswith (s p : string) {struct p} : bool :=
  match p, s with
  | EmptyString, _ => true
  | String a p', String b s' => Ascii.eqb a b && startswith s' p'
  | String _ _, EmptyString => false
  end.

(** [s.split(sep)] for a one-character separator: one field more than
    there are separators, empty fields kept. *)
Fixpoint split (sep : ascii) (s : string) : list string :=
  match s with
  | EmptyString => [""]
  | String c s' =>
      if Ascii.eqb c sep then "" :: split sep s'
      else match split sep s' with
           | f :: fs => String c f :: fs
           | [] => [String c ""]
           end
  end.

(** [s[:-1]] *)
Fixpoint drop_last (s : string) : string :=
  match s with
  | EmptyString => ""
  | String c EmptyString => ""
  | String c s' => String c (drop_last s')
  end.

(** [s.replace(c, '')] for a one-character [c]. *)
Fixpoint remove_char (c : ascii) (s : string) : string :=
  match s with
  | EmptyString => ""
  | String a s' => if Ascii.eqb a c then remove_char c s' else String a (remove_char c s')
  end.

(** [sep.join(l)] *)
Definition join (sep : string) (l : list string) : string := String.concat sep l.

(** [str(n)] for a non-negative integer. *)
Definition str_of_int (n : N) : string := NilZero.string_of_uint (N.to_uint n).

(** [l.sort()] on a list of strings: the sorted permutation. *)
Definition sort (l : list string) : list string := merge_sort String.le l.

(** Regular expressions as far as the script uses them: literal characters
    and [.], which matches any character but a newline. *)
Inductive rchar : Type :=
| Lit (c : ascii)
| AnyChar.

Definition regex : Type := list rchar.

Fixpoint compile (pattern : string) : regex :=
  match pattern with
  | EmptyString => []
  | String c p => (if Ascii.eqb c "."%char then AnyChar else Lit c) :: compile p
  end.

Fixpoint match_here (r : regex) (s : string) : bool :=
  match r, s with
  | [], _ => true
  | Lit a :: r', String c s' => Ascii.eqb a c && match_here r' s'
  | AnyChar :: r', String c s' => negb (Ascii.eqb c NL) && match_here r' s'
  | _ :: _, EmptyString => false
  end.

(** [re.search(r, s) is not None] *)
Fixpoint re_search (r : regex) (s : string) : bool :=
  match_here r s ||
  match s with
  | EmptyString => false
  | String _ s' => re_search r s'
  end.

(** An insertion-ordered [dict] with string keys: assigning to a key that
    is present keeps its position, a new key goes last. *)
Definition dict (V : Type) : Type := list (string * V).

Fixpoint setitem {V} (k : string) (v : V) (d : dict V) : dict V :=
  match d with
  | [] => [(k, v)]
  | (k', v') :: d' =>
      if String.eqb k' k then (k', v) :: d' else (k', v') :: setitem k v d'
  end.

Fixpoint getitem {V} (k : string) (d : dict V) : option V :=
  match d with
  | [] => None
  | (k', v') :: d' => if String.eqb k' k then Some v' else getitem k d'
  end.

Definition keys {V} (d : dict V) : list string := map fst d.
Definition values {V} (d : dict V) : list V := map snd d.

End Py.

Import Py.

(** ** [set_trio] *)

(** [listing] is what [os.listdir(path)] returned. *)
Definition set_trio (listing : list string) : list string :=
  Py.sort (filter (fun dir => Is_true (startswith dir "trio")) listing).

(** ** [write_metadata] *)

(** The local variables of [write_metadata] and the strings written to
    [fh] so far, oldest first. *)
Record wm_state : Type := WmState {
  wm_indiv : string;
  wm_protocols : string;
  wm_entry : option string;
  wm_fh : list string
}.

Definition metadata_header : string := "indiv " +:+ tab +:+ " protocols " +:+ nl.

(** The body of the [for dir in trio] loop. *)
Definition wm_body (dir : string) (st : wm_state) : wm_state * result unit :=
  let tmp := split "."%char dir in
  match tmp !! 0%nat, tmp !! 1%nat with
  | Some t0, Some t1 =>
      let ind := t0 +:+ "." +:+ t1 in
      match tmp !! 2%nat with
      | Some prot =>
          let st1 :=
            if String.eqb (wm_indiv st) ind then
              let protocols := wm_protocols st +:+ prot +:+ "," in
              WmState (wm_indiv st) protocols
                      (Some (wm_indiv st +:+ tab +:+ protocols)) (wm_fh st)
            else st in
          let st2 :=
            if negb (String.eqb (wm_indiv st1) ind) then
              let st1' :=
                match wm_entry st1 with
                | Some entry =>
                    let entry' := drop_last entry +:+ nl in
                    WmState (wm_indiv st1) (wm_protocols st1) (Some entry')
                            (wm_fh st1 ++ [entry'])
                | None => st1
                end in
              WmState ind (prot +:+ ",") (wm_entry st1') (wm_fh st1')
            else st1 in
          (st2, Returned tt)
      | None => (st, Raised IndexError)
      end
  | _, _ => (st, Raised IndexError)
  end.

Fixpoint wm_loop (trio : list string) (st : wm_state) : wm_state * result unit :=
  match trio with
  | [] => (st, Returned tt)
  | dir :: rest =>
      match wm_body dir st with
      | (st', Returned _) => wm_loop rest st'
      | (st', Raised e) => (st', Raised e)
      end
  end.

(** [write_metadata trio]: what was written to [metadata.tsv], and how the
    call ended. *)
Definition write_metadata (trio : list string) : list string * result unit :=
  let st0 := WmState "" "" None [metadata_header] in
  match wm_loop trio st0 with
  | (st, Returned _) =>
      match wm_entry st with
      | Some entry => (wm_fh st ++ [drop_last entry +:+ nl], Returned tt)
      | None => (wm_fh st, Raised TypeError)
      end
  | (st, Raised e) => (wm_fh st, Raised e)
  end.

(** ** [make_subdir] *)

(** What the script sees of the file system: [os.path.exists] and the
    effect of the shell command [mkdir -p path].  The two laws are what the
    script relies on: after [mkdir -p path] the path exists, and no path
    that existed is lost. *)
Class FileSystem (T : Type) : Type := {
  path_exists : string → T → bool;
  mkdir_p : string → T → T;
  mkdir_p_exists : ∀ path fs, path_exists path (mkdir_p path fs) = true;
  mkdir_p_keeps : ∀ path q fs,
    path_exists q fs = true → path_exists q (mkdir_p path fs) = true
}.

(** The simplest file system: the set of the paths that exist. *)
#[export] Program Instance path_set_fs : FileSystem (gset string) := {|
  path_exists path fs := bool_decide (path ∈ fs);
  mkdir_p path fs := {[ path ]} ∪ fs
|}.
Next Obligation. intros path fs. apply bool_decide_eq_true. set_solver. Qed.
Next Obligation.
  intros path q fs Hq. apply bool_decide_eq_true.
  apply bool_decide_eq_true in Hq. set_solver.
Qed.

(** The file system, what was printed, and the commands given to
    [os.system], oldest first. *)
Record world (T : Type) : Type := World {
  w_fs : T;
  w_stdout : list string;
  w_shell : list string
}.
Arguments World {T} _ _ _.
Arguments w_fs {T} _.
Arguments w_stdout {T} _.
Arguments w_shell {T} _.

(** The body of the [for indiv in trio] loop. *)
Definition ms_body {T : Type} `{!FileSystem T} (hic_dir indiv : string)
  (w : world T) : world T * result unit :=
  match split "."%char indiv !! 1%nat with
  | Some sp =>
      let path := hic_dir +:+ sp in
      if negb (path_exists path (w_fs w)) then
        (World (mkdir_p path (w_fs w))
               (w_stdout w ++ ["Creation of " +:+ path +:+ " directory"])
               (w_shell w ++ ["mkdir -p " +:+ path]),
         Returned tt)
      else
        (World (w_fs w) (w_stdout w ++ [path +:+ " already exists"]) (w_shell w),
         Returned tt)
  | None => (w, Raised IndexError)
  end.

Fixpoint make_subdir {T : Type} `{!FileSystem T} (hic_dir : string)
  (trio : list string) (w : world T) : world T * result unit :=
  match trio with
  | [] => (w, Returned tt)
  | indiv :: rest =>
      match ms_body hic_dir indiv w with
      | (w', Returned _) => make_subdir hic_dir rest w'
      | (w', Raised e) => (w', Raised e)
      end
  end.

(** ** [create_matrice_directory] *)

Definition h5_path : string := "hic_results/matrix/h5df/".

(** [RES_DIC]: resolution, then protocol, then the list of paths. *)
Definition res_dic : Type := list (N * dict (list string)).

Definition RES_DIC_init : res_dic :=
  [(1000000%N, []); (500000%N, []); (200000%N, []); (50000%N, [])].

(** [RES_DIC[k]] *)
Fixpoint res_get (R : res_dic) (k : N) : dict (list string) :=
  match R with
  | [] => []
  | (k', d) :: R' => if N.eqb k' k then d else res_get R' k
  end.

(** [RES_DIC[k][p] = v] *)
Definition res_setitem (k : N) (p : string) (v : list string) (R : res_dic)
  : res_dic :=
  map (fun kd => if N.eqb kd.1 k then (kd.1, setitem p v kd.2) else kd) R.

(** [pt == v] for a [str] and a [list]: never equal. *)
Definition str_eq_list (pt : string) (v : list string) : bool := false.

(** [pt in RES_DIC[k].values()] *)
Definition str_in_values (pt : string) (vs : list (list string)) : bool :=
  existsb (str_eq_list pt) vs.

(** The first [for k in RES_DIC.keys()] loop. *)
Definition cmd_init_protocol (pt : string) (R : res_dic) : res_dic :=
  foldl (fun R k =>
           if negb (str_in_values pt (values (res_get R k)))
           then res_setitem k (remove_char NL pt) [] R
           else R)
        R (map fst R).

(** The [for mat in os.listdir(...)] loop, for the resolution [k]. *)
Definition cmd_scan (wdir ind_dir key : string) (k : N) (files : list string)
  (R : res_dic) : res_dic :=
  snd (foldl (fun (acc : list string * res_dic) mat =>
                let '(mat_path, R) := acc in
                if re_search (compile (str_of_int k +:+ ".matrix.h5")) mat then
                  let mat_path' := mat_path ++ [wdir +:+ ind_dir +:+ h5_path +:+ mat] in
                  (mat_path', res_setitem k key mat_path' R)
                else (mat_path, R))
             ([], R) files).

(** The body of the [try]: [listdir] is [os.listdir], [None] standing for
    [OSError]. *)
Fixpoint cmd_try (listdir : string → option (list string))
  (wdir ind_dir key : string) (ks : list N) (R : res_dic)
  : res_dic * result unit :=
  match ks with
  | [] => (R, Returned tt)
  | k :: ks' =>
      match listdir (wdir +:+ ind_dir +:+ h5_path) with
      | Some files =>
          cmd_try listdir wdir ind_dir key ks' (cmd_scan wdir ind_dir key k files R)
      | None => (R, Raised OSError)
      end
  end.

(** The body of the [for pt in prots] loop. *)
Definition cmd_protocol (listdir : string → option (list string))
  (wdir ind pt : string) (R : res_dic) : res_dic * result unit :=
  let R1 := cmd_init_protocol pt R in
  let ind_dir := ind +:+ "." +:+ remove_char NL pt +:+ "/" in
  match cmd_try listdir wdir ind_dir (remove_char NL pt) (map fst R1) R1 with
  | (R2, Returned _) => (R2, Returned tt)
  | (R2, Raised OSError) => (R2, Returned tt)
  | (R2, Raised e) => (R2, Raised e)
  end.

Fixpoint cmd_protocols (listdir : string → option (list string))
  (wdir ind : string) (prots : list string) (R : res_dic)
  : res_dic * result unit :=
  match prots with
  | [] => (R, Returned tt)
  | pt :: rest =>
      match cmd_protocol listdir wdir ind pt R with
      | (R', Returned _) => cmd_protocols listdir wdir ind rest R'
      | (R', Raised e) => (R', Raised e)
      end
  end.

(** The body of the [for line in mt] loop. *)
Definition cmd_line (listdir : string → option (list string))
  (wdir line : string) (R : res_dic) : res_dic * result unit :=
  if startswith line "trio" then
    match split TAB line !! 0%nat with
    | Some ind =>
        match split TAB line !! 1%nat with
        | Some field => cmd_protocols listdir wdir ind (split ","%char field) R
        | None => (R, Raised IndexError)
        end
    | None => (R, Raised IndexError)
    end
  else (R, Returned tt).

Fixpoint cmd_lines (listdir : string → option (list string))
  (wdir : string) (lines : list string) (R : res_dic) : res_dic * result unit :=
  match lines with
  | [] => (R, Returned tt)
  | line :: rest =>
      match cmd_line listdir wdir line R with
      | (R', Returned _) => cmd_lines listdir wdir rest R'
      | (R', Raised e) => (R', Raised e)
      end
  end.

(** [create_matrice_directory()]: [lines] are the lines of [metadata.tsv]. *)
Definition create_matrice_directory (listdir : string → option (list string))
  (wdir : string) (lines : list string) : result res_dic :=
  match cmd_lines listdir wdir lines RES_DIC_init with
  | (R, Returned _) => Returned R
  | (_, Raised e) => Raised e
  end.

(** ** The summation loop of [__main__] *)

(** The command lines given to [os.system], in order. *)
Definition sum_all_matrices (hic_dir : string) (matrices : res_dic) : list string :=
  flat_map (fun res =>
    map (fun prot =>
           let mats := join " " (default [] (getitem prot (res_get matrices res))) in
           "hicSumMatrices --matrices " +:+ mats +:+ " --outFileName "
             +:+ hic_dir +:+ prot +:+ "_" +:+ str_of_int res +:+ ".h5")
        (keys (res_get matrices res)))
    (map fst matrices).

(** ** Notions used to state the properties *)

(** The individual id of a trio name: its first two dot-delimited fields
    joined by a dot. *)
Definition indiv_of (dir : string) : option string :=
  match split "."%char dir with
  | t0 :: t1 :: _ => Some (t0 +:+ "." +:+ t1)
  | _ => None
  end.

(** The protocol of a trio name: its third dot-delimited field. *)
Definition protocol_of (dir : string) : option string :=
  split "."%char dir !! 2%nat.

(** A name the metadata writer can take apart: it has a third field. *)
Definition well_formed_name (dir : string) : Prop := is_Some (protocol_of dir).

(** No two consecutive names share a derived individual id. *)
Fixpoint no_adjacent_share (trio : list string) : Prop :=
  match trio with
  | a :: (b :: _) as rest =>
      (∀ i, indiv_of a = Some i → indiv_of b ≠ Some i) ∧ no_adjacent_share rest
  | _ => True
  end.

(** One step of the metadata loop on the two derived strings. *)
Definition wm_step (ind prot : string) (st : wm_state) : wm_state :=
  if String.eqb (wm_indiv st) ind then
    WmState (wm_indiv st) (wm_protocols st +:+ prot +:+ ",")
            (Some (wm_indiv st +:+ tab +:+ (wm_protocols st +:+ prot +:+ ",")))
            (wm_fh st)
  else
    match wm_entry st with
    | Some entry =>
        WmState ind (prot +:+ ",") (Some (drop_last entry +:+ nl))
                (wm_fh st ++ [drop_last entry +:+ nl])
    | None => WmState ind (prot +:+ ",") None (wm_fh st)
    end.

(** The four resolutions, in the order of the keys of [RES_DIC]. *)
Definition RES_KEYS : list N := [1000000%N; 500000%N; 200000%N; 50000%N].

(** The results directory of an individual and a protocol. *)
Definition results_dir (wdir ind key : string) : string :=
  wdir +:+ (ind +:+ "." +:+ key +:+ "/") +:+ h5_path.

(** The paths of the files of a listing whose name matches the resolution
    [k], in the order of the listing. *)
Definition matching_paths (wdir ind key : string) (k : N) (files : list string)
  : list string :=
  map (λ mat, wdir +:+ (ind +:+ "." +:+ key +:+ "/") +:+ h5_path +:+ mat)
      (filter (λ mat, Is_true (re_search (compile (str_of_int k +:+ ".matrix.h5")) mat))
              files).

(** What one scan of the results directory of [ind] and [key] finds for the
    resolution [k]: nothing if the directory is missing. *)
Definition scan_result (listdir : string → option (list string))
  (wdir ind key : string) (k : N) : list string :=
  match listdir (results_dir wdir ind key) with
  | Some files => matching_paths wdir ind key k files
  | None => []
  end.

(** The effect of one (individual, protocol) scan on the mapping. *)
Definition assign_protocol (listdir : string → option (list string))
  (wdir : string) (R : res_dic) (ip : string * string) : res_dic :=
  map (λ kd, (kd.1, setitem ip.2 (scan_result listdir wdir ip.1 ip.2 kd.1) kd.2)) R.

(** The (individual, protocol key) pairs a metadata line makes the collector
    scan, in order. *)
Definition line_pairs (line : string) : list (string * string) :=
  if startswith line "trio" then
    match split TAB line with
    | ind :: field :: _ => map (λ pt, (ind, remove_char NL pt)) (split ","%char field)
    | _ => []
    end
  else [].

Definition metadata_pairs (lines : list string) : list (string * string) :=
  flat_map line_pairs lines.

(** A line the collector can take apart: if it starts with [trio], it has a
    tab. *)
Definition line_ok (line : string) : Prop :=
  startswith line "trio" = true → is_Some (split TAB line !! 1%nat).

(** The individual of the last pair that lists the protocol [key]. *)
Fixpoint last_indiv (key : string) (pairs : list (string * string)) : option string :=
  match pairs with
  | [] => None
  | (ind, p) :: rest =>
      match last_indiv key rest with
      | Some i => Some i
      | None => if String.eqb p key then Some ind else None
      end
  end.

(** The command line of one summation. *)
Definition sum_command (hic_dir : string) (res : N) (prot : string)
  (paths : list string) : string :=
  "hicSumMatrices --matrices " +:+ join " " paths +:+ " --outFileName "
    +:+ hic_dir +:+ prot +:+ "_" +:+ str_of_int res +:+ ".h5".

(** The path recorded for a matrix file. *)
Definition matrix_path (wdir ind key mat : string) : string :=
  wdir +:+ (ind +:+ "." +:+ key +:+ "/") +:+ h5_path +:+ mat.

(** What the pass leaves for a protocol at a resolution: what the scan for
    the last individual listed with it found. *)
Definition collected (listdir : string → option (list string))
  (wdir : string) (lines : list string) (res : N) (prot : string) : list string :=
  match last_indiv prot (metadata_pairs lines) with
  | Some ind => scan_result listdir wdir ind prot res
  | None => []
  end.

(** The keys of a dict after assigning to the keys [ps] in order. *)
Definition add_key (ks : list string) (p : string) : list string :=
  if bool_decide (p ∈ ks) then ks else ks ++ [p].

(** "A protocol key exists in a sub-mapping only if a matching file was
    found during the last assignment for that protocol". *)
Definition key_only_if_found (listdir : string → option (list string))
  (wdir : string) (lines : list string) (R : res_dic) : Prop :=
  ∀ k p, p ∈ keys (res_get R k) →
         ∃ ind, last_indiv p (metadata_pairs lines) = Some ind
                ∧ scan_result listdir wdir ind p k ≠ [].

(** "The summation is invoked only for the pairs with a non-empty list". *)
Definition invoked_only_if_nonempty (hic_dir : string) (R : res_dic) : Prop :=
  ∀ res prot paths,
    getitem prot (res_get R res) = Some paths →
    sum_command hic_dir res prot paths ∈ sum_all_matrices hic_dir R →
    paths ≠ [].

(** A file system with no results directory at all, and a metadata file
    with one row. *)
Definition no_results_dir : string → option (list string) := λ _, None.

Definition one_row_metadata : list string :=
  [metadata_header; "trio.A" +:+ tab +:+ "HiC" +:+ nl].

(** Two results directories for the same protocol, and the metadata file
    that lists them. *)
Definition two_results_dirs (path : string) : option (list string) :=
  if String.eqb path "/w/trio.A.HiC/hic_results/matrix/h5df/"
  then Some ["a_1000000.matrix.h5"; "b_1000000.matrix.h5"]
  else if String.eqb path "/w/trio.B.HiC/hic_results/matrix/h5df/"
  then Some ["y_1000000.matrix.h5"; "z_1000000.matrix.h5"; "z_50000.matrix.h5"]
  else None.

Definition two_row_metadata : list string :=
  [metadata_header; "trio.A" +:+ tab +:+ "HiC" +:+ nl;
   "trio.B" +:+ tab +:+ "HiC" +:+ nl].

(** *** The metadata table as the specification words it *)

(** The individual id and the protocol of a trio name. *)
Definition name_fields (dir : string) : option (string * string) :=
  match indiv_of dir, protocol_of dir with
  | Some i, Some p => Some (i, p)
  | _, _ => None
  end.

Definition trio_fields (trio : list string) : list (string * string) :=
  omap name_fields trio.

(** The distinct elements of a list, in the order they first appear. *)
Fixpoint first_occurrences (l : list string) : list string :=
  match l with
  | [] => []
  | x :: l' => x :: filter (λ y, y ≠ x) (first_occurrences l')
  end.

(** The protocols of the entries of an individual, in order. *)
Definition protocols_of (id : string) (fields : list (string * string))
  : list string :=
  map snd (filter (λ ip, ip.1 = id) fields).

(** A row: the id, a tab, the protocols joined by commas, a newline. *)
Definition metadata_row (id : string) (prots : list string) : string :=
  id +:+ tab +:+ join "," prots +:+ nl.

(** One row per distinct individual, in the order individuals first
    appear. *)
Definition individuals (trio : list string) : list (string * list string) :=
  map (λ id, (id, protocols_of id (trio_fields trio)))
      (first_occurrences (map fst (trio_fields trio))).

Definition metadata_rows (trio : list string) : list string :=
  map (λ g, metadata_row g.1 g.2) (individuals trio).

(** The entries of each individual are next to each other. *)
Fixpoint clustered (l : list string) : Prop :=
  match l with
  | [] => True
  | x :: l' => (x ∈ l' → head l' = Some x) ∧ clustered l'
  end.

(** The entries of a list of individuals, each with its protocols. *)
Definition expand_groups (gs : list (string * list string))
  : list (string * string) :=
  flat_map (λ g, map (pair g.1) g.2) gs.

(** [protocols] after the protocols [qs] were added to it. *)
Definition accumulate (protocols : string) (qs : list string) : string :=
  foldl (λ P q, P +:+ q +:+ ",") protocols qs.

(** What the next change of individual will write. *)
Definition wm_pending (st : wm_state) : list string :=
  match wm_entry st with
  | Some entry => [drop_last entry +:+ nl]
  | None => []
  end.

(** The root of the example of the specification. *)
Definition example_root : list string :=
  ["trio.A.001.HiC"; "trio.A.001.Capture"; "trio.B.002.HiC"].

(** *** Notions for the further properties *)

(** Some two consecutive names share a derived individual id. *)
Fixpoint adjacent_share (trio : list string) : Prop :=
  match trio with
  | a :: (b :: _) as rest =>
      (∃ i, indiv_of a = Some i ∧ indiv_of b = Some i) ∨ adjacent_share rest
  | _ => False
  end.

(** The [--matrices] and [--outFileName] arguments of the summations, in
    the order of the loop. *)
Definition sum_jobs (hic_dir : string) (matrices : res_dic) : list (string * string) :=
  flat_map (λ res,
    map (λ prot,
           (join " " (default [] (getitem prot (res_get matrices res))),
            hic_dir +:+ prot +:+ "_" +:+ str_of_int res +:+ ".h5"))
        (keys (res_get matrices res)))
    (map fst matrices).

(** A character of a pattern against a character of a name: the dot stands
    for any character but a newline. *)
Definition char_matches (pc c : ascii) : Prop :=
  if Ascii.eqb pc "."%char then c ≠ NL else c = pc.

(** A string the pattern matches, character by character. *)
Definition pattern_matches (pattern m : string) : Prop :=
  Forall2 char_matches (list_ascii_of_string pattern) (list_ascii_of_string m).

(** The runs of a list of entries: the maximal groups of consecutive
    entries of one individual, each with its protocols. *)
Fixpoint runs (fields : list (string * string)) : list (string * list string) :=
  match fields with
  | [] => []
  | (i, p) :: rest =>
      match runs rest with
      | (j, qs) :: gs =>
          if String.eqb i j then (i, p :: qs) :: gs else (i, [p]) :: (j, qs) :: gs
      | [] => [(i, [p])]
      end
  end.

(** Runs are not empty and two consecutive runs are of different
    individuals. *)
Fixpoint runs_ok (gs : list (string * list string)) : Prop :=
  match gs with
  | [] => True
  | g :: gs' => g.2 ≠ [] ∧ (∀ g', head gs' = Some g' → g'.1 ≠ g.1) ∧ runs_ok gs'
  end.

(** The run whose row is written at the end of each run: the run itself if
    it has at least two entries, otherwise the closest earlier run that has
    ([carry]), if there is one. *)
Fixpoint emitted_runs (carry : option (string * list string))
  (gs : list (string * list string)) : list (string * list string) :=
  match gs with
  | [] => []
  | g :: gs' =>
      let carry' := if Nat.leb 2 (length g.2) then Some g else carry in
      match carry' with
      | Some r => r :: emitted_runs carry' gs'
      | None => emitted_runs carry' gs'
      end
  end.

(** *** Reading [metadata.tsv] back *)

Definition CR : ascii := "013"%char.

(** What a text file read with [open(path, 'r')] gives for its content:
    the line ends [\r\n] and [\r] are read as [\n]. *)
Fixpoint universal_newlines (s : string) : string :=
  match s with
  | EmptyString => ""
  | String c s' =>
      if Ascii.eqb c CR then
        match s' with
        | String c' s'' =>
            if Ascii.eqb c' NL then String NL (universal_newlines s'')
            else String NL (universal_newlines s')
        | EmptyString => String NL ""
        end
      else String c (universal_newlines s')
  end.

(** [for line in f]: the lines, each with its newline, the last one
    possibly without. *)
Fixpoint file_lines (s : string) : list string :=
  match s with
  | EmptyString => []
  | String c s' =>
      if Ascii.eqb c NL then String NL "" :: file_lines s'
      else match file_lines s' with
           | line :: rest => String c line :: rest
           | [] => [String c ""]
           end
  end.

(** The lines read from a file that holds the strings [written], in
    order. *)
Definition read_back (written : list string) : list string :=
  file_lines (universal_newlines (String.concat "" written)).

(** The character [c] does not occur in [s]. *)
Definition has_no (c : ascii) (s : string) : Prop := c ∉ list_ascii_of_string s.

(** A string with no tab, comma, newline or carriage return. *)
Definition plain (s : string) : Prop :=
  has_no TAB s ∧ has_no ","%char s ∧ has_no NL s ∧ has_no CR s.

(** *** Opening [metadata.tsv] *)

Definition NUL : ascii := "000"%char.

(** [create_matrice_directory()] from its [open(metadata, 'r')], which is
    outside the [try]: [read_file path] is the lines of the file at [path],
    or [None] when [open] raises [OSError] (the file is not there). *)
Definition collect_from_metadata_file (read_file : string → option (list string))
  (listdir : string → option (list string)) (wdir hic_dir : string)
  : result res_dic :=
  match read_file (hic_dir +:+ "metadata.tsv") with
  | Some lines => create_matrice_directory listdir wdir lines
  | None => Raised OSError
  end.

(** * Properties *)

(** ** Strings *)

Lemma string_eqb_refl (s : string) : String.eqb s s = true.
Proof. apply String.eqb_eq. reflexivity. Qed.

Lemma string_eqb_false (s t : string) : s ≠ t → String.eqb s t = false.
Proof. intros Hne. apply String.eqb_neq. exact Hne. Qed.

Lemma dotted_not_empty (t0 t1 : string) : t0 +:+ "." +:+ t1 ≠ "".
Proof. destruct t0; discriminate. Qed.

(** ** [set_trio] *)

(** C7: for every directory listing, [set_trio] returns exactly the names of
    the listing that start with [trio] (a permutation of them, so no other
    name and none of them missing), sorted lexicographically. *)
Theorem set_trio_sorted_filter (listing : list string) :
  set_trio listing ≡ₚ filter (λ dir, Is_true (startswith dir "trio")) listing
  ∧ StronglySorted String.le (set_trio listing)
  ∧ ∀ name, name ∈ set_trio listing
            ↔ name ∈ listing ∧ startswith name "trio" = true.
Proof.
  unfold set_trio, Py.sort. split; [apply merge_sort_Permutation|].
  split; [apply (StronglySorted_merge_sort _)|].
  intros name. rewrite merge_sort_Permutation, list_elem_of_filter.
  rewrite Is_true_true. tauto.
Qed.

(** ** [write_metadata] *)

Lemma wm_body_well_formed (dir ind prot : string) (st : wm_state) :
  indiv_of dir = Some ind → protocol_of dir = Some prot →
  wm_body dir st = (wm_step ind prot st, Returned tt).
Proof.
  unfold indiv_of, protocol_of, wm_body, wm_step.
  destruct (split "."%char dir) as [|t0 [|t1 [|t2 fs]]]; simpl; try discriminate.
  intros [= <-] [= <-]. destruct st as [indiv protocols entry fh]. simpl.
  destruct (String.eqb indiv (t0 +:+ "." +:+ t1)) eqn:E; simpl.
  - rewrite E. reflexivity.
  - rewrite E. destruct entry; reflexivity.
Qed.

Lemma well_formed_indiv (dir : string) :
  well_formed_name dir → is_Some (indiv_of dir).
Proof.
  unfold well_formed_name, protocol_of, indiv_of.
  destruct (split "."%char dir) as [|t0 [|t1 [|t2 fs]]]; simpl;
    intros [x Hx]; try discriminate; eauto.
Qed.

Lemma indiv_of_not_empty (dir i : string) : indiv_of dir = Some i → i ≠ "".
Proof.
  unfold indiv_of.
  destruct (split "."%char dir) as [|t0 [|t1 fs]]; try discriminate.
  intros [= <-]. apply dotted_not_empty.
Qed.

(** While no row has been accumulated and the names keep changing
    individual, the loop writes nothing and accumulates nothing. *)
Lemma wm_loop_no_share (trio : list string) (st : wm_state) :
  Forall well_formed_name trio →
  no_adjacent_share trio →
  wm_entry st = None →
  (∀ a, head trio = Some a → indiv_of a ≠ Some (wm_indiv st)) →
  ∃ st', wm_loop trio st = (st', Returned tt)
         ∧ wm_entry st' = None ∧ wm_fh st' = wm_fh st.
Proof.
  revert st. induction trio as [|a rest IH]; intros st Hwf Hshare Hentry Hhead.
  - exists st. auto.
  - apply Forall_cons in Hwf as [Ha Hrest].
    destruct (well_formed_indiv a Ha) as [ind Hind].
    destruct Ha as [prot Hprot].
    cbn [wm_loop]. rewrite (wm_body_well_formed a ind prot st Hind Hprot).
    assert (Hne : wm_indiv st ≠ ind).
    { intros Heq. apply (Hhead a); [reflexivity | rewrite Heq; exact Hind]. }
    unfold wm_step. rewrite (string_eqb_false _ _ Hne), Hentry.
    destruct (IH (WmState ind (prot +:+ ",") None (wm_fh st))) as (st' & Hl & He & Hf).
    + exact Hrest.
    + destruct rest; [exact I | apply Hshare].
    + reflexivity.
    + intros b Hb. destruct rest as [|b' rest]; [discriminate|].
      injection Hb as ->. cbn [wm_indiv]. destruct Hshare as [Hab _].
      apply Hab. exact Hind.
    + exists st'. auto.
Qed.

(** C5: on the empty sequence the loop does nothing, the final flush finds
    [entry] still [None] and the call raises, having written the header and
    no data row. *)
Theorem write_metadata_empty :
  write_metadata [] = ([metadata_header], Raised TypeError).
Proof. reflexivity. Qed.

(** C9 (as amended): for every non-empty sequence of trio names that each
    have at least three dot-delimited fields and in which no two consecutive
    names share an individual id (in particular a single such name),
    [write_metadata] raises at the final flush ([entry] is still [None]),
    having written the header only. *)
Theorem write_metadata_no_shared_indiv (trio : list string) :
  trio ≠ [] →
  Forall well_formed_name trio →
  no_adjacent_share trio →
  write_metadata trio = ([metadata_header], Raised TypeError).
Proof.
  intros _ Hwf Hshare. unfold write_metadata.
  destruct (wm_loop_no_share trio (WmState "" "" None [metadata_header]))
    as (st' & Hl & He & Hf); auto.
  - intros a _ Ha. apply indiv_of_not_empty in Ha. apply Ha. reflexivity.
  - rewrite Hl, He, Hf. reflexivity.
Qed.

Lemma write_metadata_no_shared_indiv_witness :
  write_metadata ["trio.A.HiC"; "trio.B.HiC"] = ([metadata_header], Raised TypeError).
Proof.
  apply (write_metadata_no_shared_indiv ["trio.A.HiC"; "trio.B.HiC"]).
  - discriminate.
  - repeat constructor; unfold well_formed_name; vm_compute; eauto.
  - simpl. split; [|exact I]. intros i. vm_compute. intros [= <-]. discriminate.
Defined.

(** C9 (as stated) fails: a single name with two fields is a non-empty
    sequence with a derived individual id and no two consecutive names
    sharing one, and [write_metadata] raises [IndexError] inside the loop,
    at [tmp[2]], not at the final flush. *)
Lemma short_name_raises_in_loop :
  ["trio.A"] ≠ []
  ∧ indiv_of "trio.A" = Some "trio.A"
  ∧ no_adjacent_share ["trio.A"]
  ∧ write_metadata ["trio.A"] = ([metadata_header], Raised IndexError)
  ∧ ∀ written, write_metadata ["trio.A"] ≠ (written, Raised TypeError).
Proof.
  split_and!; [discriminate | reflexivity | exact I | reflexivity |].
  intros written. vm_compute. discriminate.
Qed.

(** ** [make_subdir] *)

Section make_subdir_facts.
Context {T : Type} `{!FileSystem T}.
Variable hic_dir : string.

Lemma world_eta (w : world T) :
  World (w_fs w) (w_stdout w ++ []) (w_shell w) = w.
Proof. destruct w. simpl. rewrite app_nil_r. reflexivity. Qed.

(** One turn of the loop: either the name has no second field and the
    turn raises, or the directory is there afterwards, nothing that
    existed is lost, and [mkdir -p] ran only if the path was missing. *)
Lemma ms_body_cases (indiv : string) (w w' : world T) (r : result unit) :
  ms_body hic_dir indiv w = (w', r) →
  (split "."%char indiv !! 1%nat = None ∧ w' = w ∧ r = Raised IndexError)
  ∨ ∃ sp, split "."%char indiv !! 1%nat = Some sp ∧ r = Returned tt
          ∧ path_exists (hic_dir +:+ sp) (w_fs w') = true
          ∧ ((path_exists (hic_dir +:+ sp) (w_fs w) = true
              ∧ w_fs w' = w_fs w ∧ w_shell w' = w_shell w)
             ∨ (path_exists (hic_dir +:+ sp) (w_fs w) = false
                ∧ w_fs w' = mkdir_p (hic_dir +:+ sp) (w_fs w)
                ∧ w_shell w' = w_shell w ++ ["mkdir -p " +:+ hic_dir +:+ sp])).
Proof.
  unfold ms_body. destruct (split "."%char indiv !! 1%nat) as [sp|].
  - destruct (path_exists (hic_dir +:+ sp) (w_fs w)) eqn:E; simpl;
      intros [= <- <-]; right; exists sp; simpl.
    + split_and!; auto.
    + split_and!; auto using mkdir_p_exists.
  - intros [= <- <-]. left. auto.
Qed.

Lemma ms_body_keeps (indiv : string) (w w' : world T) (r : result unit) (q : string) :
  ms_body hic_dir indiv w = (w', r) →
  path_exists q (w_fs w) = true → path_exists q (w_fs w') = true.
Proof.
  intros Hb Hq. apply ms_body_cases in Hb as [(_ & -> & _)|(sp & _ & _ & _ & Hc)]; [done|].
  destruct Hc as [(_ & -> & _)|(_ & -> & _)]; auto using mkdir_p_keeps.
Qed.

Lemma make_subdir_keeps (trio : list string) (w w' : world T) (r : result unit)
  (q : string) :
  make_subdir hic_dir trio w = (w', r) →
  path_exists q (w_fs w) = true → path_exists q (w_fs w') = true.
Proof.
  revert w. induction trio as [|a rest IH]; intros w; cbn [make_subdir].
  - intros [= <- <-]. auto.
  - destruct (ms_body hic_dir a w) as [w1 [[]|e]] eqn:Hb.
    + intros Hrest Hq. eapply IH; [exact Hrest|]. eapply ms_body_keeps; eauto.
    + intros [= <- <-] Hq. eapply ms_body_keeps; eauto.
Qed.

(** Running the loop on a file system that has every path the first run
    left: no command is issued, the file system is untouched, the run ends
    as the first one did. *)
Lemma make_subdir_again (trio : list string) (w w1 w2 : world T) (r : result unit) :
  make_subdir hic_dir trio w = (w1, r) →
  (∀ q, path_exists q (w_fs w1) = true → path_exists q (w_fs w2) = true) →
  ∃ out, make_subdir hic_dir trio w2
         = (World (w_fs w2) (w_stdout w2 ++ out) (w_shell w2), r).
Proof.
  revert w w2. induction trio as [|a rest IH]; intros w w2; cbn [make_subdir].
  - intros [= <- <-] _. exists []. rewrite world_eta. reflexivity.
  - destruct (ms_body hic_dir a w) as [w' r'] eqn:Hb.
    pose proof (ms_body_cases _ _ _ _ Hb) as [(Hsp & -> & ->)|(sp & Hsp & -> & Hex & _)].
    + intros [= <- <-] _. exists []. unfold ms_body. rewrite Hsp, world_eta.
      reflexivity.
    + intros Hrest Hsub.
      assert (Hex2 : path_exists (hic_dir +:+ sp) (w_fs w2) = true).
      { apply Hsub. eapply make_subdir_keeps; eauto. }
      assert (Hb2 : ms_body hic_dir a w2
                    = (World (w_fs w2)
                         (w_stdout w2 ++ [(hic_dir +:+ sp) +:+ " already exists"])
                         (w_shell w2), Returned tt)).
      { unfold ms_body. rewrite Hsp. cbv zeta. rewrite Hex2. cbn [negb]. reflexivity. }
      rewrite Hb2.
      edestruct (IH w' (World (w_fs w2)
                   (w_stdout w2 ++ [(hic_dir +:+ sp) +:+ " already exists"])
                   (w_shell w2))) as [out Hout]; [exact Hrest | exact Hsub |].
      rewrite Hout. cbn [w_fs w_stdout w_shell].
      exists (((hic_dir +:+ sp) +:+ " already exists") :: out).
      rewrite <- app_assoc. reflexivity.
Qed.

Lemma make_subdir_returns (trio : list string) (w : world T) :
  Forall (λ dir, is_Some (split "."%char dir !! 1%nat)) trio →
  ∃ w', make_subdir hic_dir trio w = (w', Returned tt).
Proof.
  revert w. induction trio as [|a rest IH]; intros w Hall; cbn [make_subdir].
  - eauto.
  - apply Forall_cons in Hall as [[sp Hsp] Hrest].
    unfold ms_body. rewrite Hsp. cbv zeta.
    destruct (negb _); apply IH; exact Hrest.
Qed.

(** The directories of the names are there after a run that returned. *)
Lemma make_subdir_creates (trio : list string) (w w' : world T) (dir sp : string) :
  make_subdir hic_dir trio w = (w', Returned tt) →
  dir ∈ trio → split "."%char dir !! 1%nat = Some sp →
  path_exists (hic_dir +:+ sp) (w_fs w') = true.
Proof.
  revert w. induction trio as [|a rest IH]; intros w; cbn [make_subdir].
  - intros _ Hin. inversion Hin.
  - destruct (ms_body hic_dir a w) as [w1 r1] eqn:Hb.
    pose proof (ms_body_cases _ _ _ _ Hb) as [(_ & _ & ->)|(sp' & Hsp' & -> & Hex & _)];
      [discriminate|].
    intros Hrest Hin Hsp. apply elem_of_cons in Hin as [->|Hin].
    + rewrite Hsp in Hsp'. injection Hsp' as <-.
      eapply make_subdir_keeps; eauto.
    + eapply IH; eauto.
Qed.

(** [mkdir -p] is only run for paths that were missing. *)
Lemma make_subdir_commands (trio : list string) (w w' : world T) (r : result unit) :
  make_subdir hic_dir trio w = (w', r) →
  ∃ cmds, w_shell w' = w_shell w ++ cmds
          ∧ ∀ c, c ∈ cmds →
                 ∃ dir sp, dir ∈ trio ∧ split "."%char dir !! 1%nat = Some sp
                           ∧ c = "mkdir -p " +:+ hic_dir +:+ sp
                           ∧ path_exists (hic_dir +:+ sp) (w_fs w) = false.
Proof.
  revert w. induction trio as [|a rest IH]; intros w; cbn [make_subdir].
  - intros [= <- <-]. exists []. rewrite app_nil_r. split; [done|].
    intros c Hc. inversion Hc.
  - destruct (ms_body hic_dir a w) as [w1 r1] eqn:Hb.
    pose proof (ms_body_cases _ _ _ _ Hb) as [(_ & -> & ->)|(sp & Hsp & -> & _ & Hc)].
    + intros [= <- <-]. exists []. rewrite app_nil_r. split; [done|].
      intros c Hc. inversion Hc.
    + intros Hrest. destruct (IH _ Hrest) as (cmds & Hsh & Hcmds).
      assert (Hlift : ∀ c, c ∈ cmds →
                ∃ dir sp0, dir ∈ a :: rest ∧ split "."%char dir !! 1%nat = Some sp0
                          ∧ c = "mkdir -p " +:+ hic_dir +:+ sp0
                          ∧ path_exists (hic_dir +:+ sp0) (w_fs w) = false).
      { intros c Hin. destruct (Hcmds c Hin) as (dir & sp0 & Hd & Hs & -> & Hne).
        exists dir, sp0. split_and!; auto; [by right|].
        destruct (path_exists (hic_dir +:+ sp0) (w_fs w)) eqn:E; [|done].
        rewrite (ms_body_keeps _ _ _ _ _ Hb E) in Hne. discriminate. }
      destruct Hc as [(_ & _ & Hs1)|(Hne & _ & Hs1)]; rewrite Hs1 in Hsh.
      * exists cmds. auto.
      * exists (("mkdir -p " +:+ hic_dir +:+ sp) :: cmds).
        rewrite <- app_assoc in Hsh. split; [exact Hsh|].
        intros c Hin. apply elem_of_cons in Hin as [->|Hin]; [|auto].
        exists a, sp. split_and!; auto. by left.
Qed.

End make_subdir_facts.

(** C8: [make_subdir] takes the second dot-delimited field of each name and
    runs [mkdir -p hic_dir+field] only when that path is missing; a run that
    met no malformed name leaves every such directory in place; and a second
    run on the same names issues no command, leaves the file system as the
    first run left it, and ends as the first did, with no error when every
    name has a second field. *)
Theorem make_subdir_idempotent {T : Type} `{!FileSystem T}
  (hic_dir : string) (trio : list string) (w w1 w2 : world T) (r1 r2 : result unit) :
  make_subdir hic_dir trio w = (w1, r1) →
  make_subdir hic_dir trio w1 = (w2, r2) →
  (w_fs w2 = w_fs w1 ∧ w_shell w2 = w_shell w1 ∧ r2 = r1)
  ∧ (Forall (λ dir, is_Some (split "."%char dir !! 1%nat)) trio →
     r1 = Returned tt ∧ r2 = Returned tt
     ∧ ∀ dir sp, dir ∈ trio → split "."%char dir !! 1%nat = Some sp →
                 path_exists (hic_dir +:+ sp) (w_fs w1) = true)
  ∧ ∃ cmds, w_shell w1 = w_shell w ++ cmds
            ∧ ∀ c, c ∈ cmds →
                   ∃ dir sp, dir ∈ trio ∧ split "."%char dir !! 1%nat = Some sp
                             ∧ c = "mkdir -p " +:+ hic_dir +:+ sp
                             ∧ path_exists (hic_dir +:+ sp) (w_fs w) = false.
Proof.
  intros H1 H2.
  destruct (make_subdir_again hic_dir trio w w1 w1 r1 H1) as [out Hout]; [auto|].
  rewrite H2 in Hout. injection Hout as -> ->. cbn [w_fs w_shell].
  split; [auto|]. split; [|eapply make_subdir_commands; eauto].
  intros Hall. destruct (make_subdir_returns hic_dir trio w Hall) as [w' Hw'].
  rewrite H1 in Hw'. injection Hw' as <- ->. split_and!; auto.
  intros dir sp. eapply make_subdir_creates; eauto.
Qed.

Lemma make_subdir_idempotent_witness :
  ∃ w1 w2 : world (gset string),
    make_subdir "hic/" ["trio.A.HiC"; "trio.A.Cap"; "trio.B.HiC"] (World ∅ [] [])
      = (w1, Returned tt)
    ∧ w_fs w2 = w_fs w1 ∧ w_shell w2 = w_shell w1
    ∧ w_shell w1 = ["mkdir -p hic/A"; "mkdir -p hic/B"].
Proof.
  pose (trio := ["trio.A.HiC"; "trio.A.Cap"; "trio.B.HiC"]).
  pose (w := World (∅ : gset string) [] []).
  destruct (make_subdir "hic/" trio w) as [w1 r1] eqn:H1.
  destruct (make_subdir "hic/" trio w1) as [w2 r2] eqn:H2.
  destruct (make_subdir_idempotent "hic/" trio w w1 w2 r1 r2 H1 H2)
    as ((Hfs & Hsh & Hr) & Hret & _).
  destruct Hret as (-> & _ & _).
  { repeat constructor; vm_compute; eauto. }
  exists w1, w2. split_and!; auto.
  vm_compute in H1. injection H1 as <-. reflexivity.
Defined.

(** ** Dictionaries *)

Section dict_facts.
Context {V : Type}.
Implicit Types (d : dict V) (k : string) (v : V).

Lemma setitem_overwrite k v v' d : setitem k v (setitem k v' d) = setitem k v d.
Proof.
  induction d as [|[k0 v0] d IH]; simpl.
  - rewrite string_eqb_refl. reflexivity.
  - destruct (String.eqb k0 k) eqn:E; simpl; rewrite E; [reflexivity|].
    rewrite IH. reflexivity.
Qed.

Lemma getitem_setitem k k' v d :
  getitem k (setitem k' v d) = if String.eqb k' k then Some v else getitem k d.
Proof.
  induction d as [|[k0 v0] d IH]; simpl.
  - reflexivity.
  - destruct (String.eqb k0 k') eqn:E; simpl.
    + apply String.eqb_eq in E as ->. destruct (String.eqb k' k); reflexivity.
    + rewrite IH. destruct (String.eqb k0 k) eqn:E0; [|reflexivity].
      apply String.eqb_eq in E0 as ->. rewrite String.eqb_sym, E. reflexivity.
Qed.

Lemma keys_setitem k v d :
  keys (setitem k v d) = if bool_decide (k ∈ keys d) then keys d else keys d ++ [k].
Proof.
  unfold keys. induction d as [|[k0 v0] d IH]; cbn [setitem map fst].
  - rewrite bool_decide_eq_false_2; [reflexivity | apply not_elem_of_nil].
  - destruct (String.eqb k0 k) eqn:E; cbn [map fst].
    + apply String.eqb_eq in E as ->.
      rewrite bool_decide_eq_true_2; [reflexivity | apply elem_of_cons; auto].
    + apply String.eqb_neq in E. rewrite IH.
      destruct (bool_decide (k ∈ map fst d)) eqn:B.
      * apply bool_decide_eq_true in B.
        rewrite bool_decide_eq_true_2; [reflexivity | apply elem_of_cons; auto].
      * apply bool_decide_eq_false in B.
        rewrite bool_decide_eq_false_2; [reflexivity|].
        rewrite elem_of_cons. intros [->|?]; auto.
Qed.

Lemma getitem_is_Some k d : is_Some (getitem k d) ↔ k ∈ keys d.
Proof.
  unfold keys. induction d as [|[k0 v0] d IH]; simpl.
  - split; [intros [? ?]; discriminate | intros H; inversion H].
  - rewrite elem_of_cons. destruct (String.eqb k0 k) eqn:E.
    + apply String.eqb_eq in E as ->. split; eauto.
    + apply String.eqb_neq in E. rewrite IH. split; [auto|].
      intros [->|?]; [done | auto].
Qed.

(** A pass of assignments [d[p] = v] over a list of pairs. *)
Lemma getitem_foldl (v : string * string → V) (pairs : list (string * string)) k d :
  getitem k (foldl (λ d ip, setitem ip.2 (v ip) d) d pairs)
  = match last_indiv k pairs with
    | Some ind => Some (v (ind, k))
    | None => getitem k d
    end.
Proof.
  revert d. induction pairs as [|[ind p] rest IH]; intros d; simpl; [reflexivity|].
  rewrite IH. destruct (last_indiv k rest); [reflexivity|].
  rewrite getitem_setitem. destruct (String.eqb p k) eqn:E; [|reflexivity].
  apply String.eqb_eq in E as ->. reflexivity.
Qed.

Lemma keys_foldl (v : string * string → V) (pairs : list (string * string)) d :
  (∀ k, k ∈ keys (foldl (λ d ip, setitem ip.2 (v ip) d) d pairs)
        ↔ k ∈ keys d ∨ k ∈ map snd pairs)
  ∧ (NoDup (keys d) → NoDup (keys (foldl (λ d ip, setitem ip.2 (v ip) d) d pairs))).
Proof.
  revert d. induction pairs as [|[ind p] rest IH]; intros d; simpl.
  - split; [|auto]. intros k. rewrite elem_of_nil. tauto.
  - destruct (IH (setitem p (v (ind, p)) d)) as [Hin Hnd]. split.
    + intros k. rewrite Hin, keys_setitem, elem_of_cons.
      destruct (bool_decide (p ∈ keys d)) eqn:B.
      * apply bool_decide_eq_true in B. split; [tauto|].
        intros [?|[->|?]]; auto.
      * rewrite elem_of_app, list_elem_of_singleton. tauto.
    + intros Hd. apply Hnd. rewrite keys_setitem.
      destruct (bool_decide (p ∈ keys d)) eqn:B; [exact Hd|].
      apply bool_decide_eq_false in B. apply NoDup_app. split; [exact Hd|].
      split; [|apply NoDup_singleton].
      intros x Hx Hx'. apply list_elem_of_singleton in Hx' as ->. auto.
Qed.

End dict_facts.

Lemma last_indiv_Some (key : string) (pairs : list (string * string)) :
  is_Some (last_indiv key pairs) ↔ key ∈ map snd pairs.
Proof.
  induction pairs as [|[ind p] rest IH]; simpl.
  - split; [intros [? ?]; discriminate | intros H; inversion H].
  - rewrite elem_of_cons, <- IH. destruct (last_indiv key rest) as [i|].
    + split; eauto.
    + destruct (String.eqb p key) eqn:E.
      * apply String.eqb_eq in E as ->. split; eauto.
      * apply String.eqb_neq in E. split; [intros [? ?]; discriminate|].
        intros [->|[? ?]]; [done | discriminate].
Qed.

(** The last pair that lists [key] splits the pass in two. *)
Lemma last_indiv_split (key ind : string) (pairs : list (string * string)) :
  last_indiv key pairs = Some ind ↔
  ∃ before after, pairs = before ++ (ind, key) :: after ∧ key ∉ map snd after.
Proof.
  revert ind. induction pairs as [|[i p] rest IH]; intros ind; simpl.
  - split; [discriminate|]. intros (b & a & H & _). destruct b; discriminate.
  - split.
    + destruct (last_indiv key rest) as [j|] eqn:L.
      * intros [= <-]. destruct (proj1 (IH j) eq_refl) as (b & a & -> & Ha).
        exists ((i, p) :: b), a. auto.
      * destruct (String.eqb p key) eqn:E; [|discriminate].
        apply String.eqb_eq in E as ->. intros [= <-].
        exists [], rest. split; [reflexivity|].
        intros Hin. apply last_indiv_Some in Hin. rewrite L in Hin.
        destruct Hin; discriminate.
    + intros (b & a & H & Ha). destruct b as [|x b]; simpl in H; simplify_eq.
      * destruct (last_indiv key a) as [j|] eqn:L.
        -- exfalso. apply Ha, last_indiv_Some. rewrite L. eauto.
        -- rewrite string_eqb_refl. reflexivity.
      * assert (Hl : last_indiv key (b ++ (ind, key) :: a) = Some ind)
          by (apply IH; eauto).
        rewrite Hl. reflexivity.
Qed.

(** ** [create_matrice_directory] *)

Lemma str_in_values_false (pt : string) (vs : list (list string)) :
  str_in_values pt vs = false.
Proof. unfold str_in_values. induction vs; simpl; auto. Qed.

Lemma res_setitem_overwrite (k : N) (key : string) (v v' : list string) (R : res_dic) :
  res_setitem k key v (res_setitem k key v' R) = res_setitem k key v R.
Proof.
  unfold res_setitem. rewrite map_map. apply map_ext. intros [k0 d]. simpl.
  destruct (N.eqb k0 k) eqn:E; simpl; rewrite E; [|reflexivity].
  rewrite setitem_overwrite. reflexivity.
Qed.

(** A loop over resolutions that assigns [RES_DIC[k][key] = v] for the
    resolutions [k] where [g k = Some v]. *)
Lemma res_assign_foldl (g : N → option (list string)) (key : string)
  (ks : list N) (R : res_dic) :
  foldl (λ R k, match g k with Some v => res_setitem k key v R | None => R end) R ks
  = map (λ kd, match g kd.1 with
               | Some v => if bool_decide (kd.1 ∈ ks)
                           then (kd.1, setitem key v kd.2) else kd
               | None => kd
               end) R.
Proof.
  revert R. induction ks as [|k ks IH]; intros R; cbn [foldl].
  - rewrite <- (map_id R) at 1. apply map_ext. intros [k0 d]. simpl.
    destruct (g k0); reflexivity.
  - rewrite IH. destruct (g k) as [v|] eqn:G.
    + unfold res_setitem. rewrite map_map. apply map_ext. intros [k0 d]. simpl.
      destruct (N.eqb k0 k) eqn:E; simpl.
      * apply N.eqb_eq in E as ->. rewrite G.
        rewrite (bool_decide_eq_true_2 (k ∈ k :: ks)); [|apply elem_of_cons; auto].
        destruct (bool_decide (k ∈ ks)); [|reflexivity].
        rewrite setitem_overwrite. reflexivity.
      * apply N.eqb_neq in E. destruct (g k0); [|reflexivity].
        destruct (bool_decide (k0 ∈ ks)) eqn:B.
        -- apply bool_decide_eq_true in B.
           rewrite bool_decide_eq_true_2; [reflexivity | apply elem_of_cons; auto].
        -- apply bool_decide_eq_false in B.
           rewrite bool_decide_eq_false_2; [reflexivity|].
           rewrite elem_of_cons. intros [?|?]; auto.
    + apply map_ext. intros [k0 d]. simpl. destruct (g k0) eqn:G0; [|reflexivity].
      destruct (bool_decide (k0 ∈ ks)) eqn:B.
      * apply bool_decide_eq_true in B.
        rewrite bool_decide_eq_true_2; [reflexivity | apply elem_of_cons; auto].
      * apply bool_decide_eq_false in B.
        rewrite bool_decide_eq_false_2; [reflexivity|].
        rewrite elem_of_cons. intros [?|?]; [congruence | auto].
Qed.

Lemma foldl_ext_eq {A B : Type} (f g : A → B → A) (a : A) (l : list B) :
  (∀ a b, f a b = g a b) → foldl f a l = foldl g a l.
Proof.
  intros Hfg. revert a. induction l as [|b l IH]; intros a; simpl; [reflexivity|].
  rewrite Hfg. apply IH.
Qed.

(** The first loop gives the protocol an empty list at every resolution. *)
Lemma cmd_init_protocol_eq (pt : string) (R : res_dic) :
  cmd_init_protocol pt R
  = map (λ kd, (kd.1, setitem (remove_char NL pt) [] kd.2)) R.
Proof.
  unfold cmd_init_protocol.
  rewrite (foldl_ext_eq _
             (λ R k, match (λ _, Some []) k with
                     | Some v => res_setitem k (remove_char NL pt) v R
                     | None => R
                     end)).
  - etransitivity;
      [apply (res_assign_foldl (λ _, Some []) (remove_char NL pt))|].
    apply map_ext_in. intros [k d] Hin. simpl.
    rewrite bool_decide_eq_true_2; [reflexivity|].
    apply list_elem_of_In. apply (in_map fst) in Hin. exact Hin.
  - intros R' k. rewrite str_in_values_false. reflexivity.
Qed.

(** The scan of a listing, for one resolution: the list of all the matches
    is assigned, if there is one. *)
Lemma cmd_scan_from (wdir ind key : string) (k : N) (files acc : list string)
  (R : res_dic) :
  foldl (λ (acc : list string * res_dic) mat,
           let '(mat_path, R) := acc in
           if re_search (compile (str_of_int k +:+ ".matrix.h5")) mat then
             let mat_path' :=
               mat_path ++ [wdir +:+ (ind +:+ "." +:+ key +:+ "/") +:+ h5_path +:+ mat] in
             (mat_path', res_setitem k key mat_path' R)
           else (mat_path, R))
        (acc, R) files
  = (acc ++ matching_paths wdir ind key k files,
     match matching_paths wdir ind key k files with
     | [] => R
     | _ :: _ => res_setitem k key (acc ++ matching_paths wdir ind key k files) R
     end).
Proof.
  revert acc R. unfold matching_paths.
  induction files as [|mat files IH]; intros acc R; cbn [foldl].
  - simpl. rewrite app_nil_r. reflexivity.
  - rewrite filter_cons.
    destruct (re_search (compile (str_of_int k +:+ ".matrix.h5")) mat) eqn:E.
    + rewrite decide_True by exact I.
      cbv zeta. rewrite IH. cbn [map]. rewrite <- app_assoc. cbn [app]. f_equal.
      destruct (map _ (filter _ files)); [reflexivity|].
      apply res_setitem_overwrite.
    + rewrite decide_False by exact id. apply IH.
Qed.

Lemma cmd_scan_eq (wdir ind key : string) (k : N) (files : list string) (R : res_dic) :
  cmd_scan wdir (ind +:+ "." +:+ key +:+ "/") key k files R
  = match matching_paths wdir ind key k files with
    | [] => R
    | m => res_setitem k key m R
    end.
Proof.
  unfold cmd_scan. rewrite cmd_scan_from. simpl.
  destruct (matching_paths wdir ind key k files); reflexivity.
Qed.

Lemma cmd_try_found (listdir : string → option (list string))
  (wdir ind key : string) (files : list string) (ks : list N) (R : res_dic) :
  listdir (results_dir wdir ind key) = Some files →
  cmd_try listdir wdir (ind +:+ "." +:+ key +:+ "/") key ks R
  = (foldl (λ R k, cmd_scan wdir (ind +:+ "." +:+ key +:+ "/") key k files R) R ks,
     Returned tt).
Proof.
  unfold results_dir. intros Hls. revert R.
  induction ks as [|k ks IH]; intros R; cbn [cmd_try foldl]; [reflexivity|].
  rewrite Hls. apply IH.
Qed.

Lemma cmd_try_missing (listdir : string → option (list string))
  (wdir ind key : string) (ks : list N) (R : res_dic) :
  listdir (results_dir wdir ind key) = None →
  cmd_try listdir wdir (ind +:+ "." +:+ key +:+ "/") key ks R
  = (R, match ks with [] => Returned tt | _ :: _ => Raised OSError end).
Proof.
  unfold results_dir. intros Hls. destruct ks; cbn [cmd_try]; [reflexivity|].
  rewrite Hls. reflexivity.
Qed.

(** One turn of the protocol loop never raises, and assigns to the protocol,
    at every resolution, what the scan of its results directory found. *)
Lemma cmd_protocol_eq (listdir : string → option (list string))
  (wdir ind pt : string) (R : res_dic) :
  cmd_protocol listdir wdir ind pt R
  = (assign_protocol listdir wdir R (ind, remove_char NL pt), Returned tt).
Proof.
  unfold cmd_protocol, assign_protocol. cbv zeta. rewrite cmd_init_protocol_eq.
  set (key := remove_char NL pt). cbn [fst snd]. unfold scan_result.
  destruct (listdir (results_dir wdir ind key)) as [files|] eqn:Hls.
  - rewrite (cmd_try_found _ _ _ _ files) by exact Hls.
    f_equal.
    rewrite (foldl_ext_eq _
               (λ R k, match (λ k, match matching_paths wdir ind key k files with
                                   | [] => None
                                   | m => Some m
                                   end) k with
                       | Some v => res_setitem k key v R
                       | None => R
                       end)).
    + etransitivity;
        [apply (res_assign_foldl
                  (λ k, match matching_paths wdir ind key k files with
                        | [] => None
                        | m => Some m
                        end) key)|].
      rewrite !map_map. apply map_ext_in. intros [k d] Hin.
      cbn [fst snd]. destruct (matching_paths wdir ind key k files) eqn:M;
        [reflexivity|].
      rewrite bool_decide_eq_true_2.
      * rewrite setitem_overwrite. reflexivity.
      * apply list_elem_of_In. rewrite in_map_iff. exists (k, d). auto.
    + intros R' k. rewrite cmd_scan_eq.
      destruct (matching_paths wdir ind key k files); reflexivity.
  - rewrite cmd_try_missing by exact Hls.
    destruct (map fst _); reflexivity.
Qed.

Lemma cmd_protocols_eq (listdir : string → option (list string))
  (wdir ind : string) (prots : list string) (R : res_dic) :
  cmd_protocols listdir wdir ind prots R
  = (foldl (assign_protocol listdir wdir) R
           (map (λ pt, (ind, remove_char NL pt)) prots),
     Returned tt).
Proof.
  revert R. induction prots as [|pt rest IH]; intros R; cbn [cmd_protocols];
    [reflexivity|].
  rewrite cmd_protocol_eq. apply IH.
Qed.

Lemma cmd_line_eq (listdir : string → option (list string))
  (wdir line : string) (R : res_dic) :
  line_ok line →
  cmd_line listdir wdir line R
  = (foldl (assign_protocol listdir wdir) R (line_pairs line), Returned tt).
Proof.
  unfold line_ok, cmd_line, line_pairs. intros Hok.
  destruct (startswith line "trio"); [|reflexivity].
  destruct (Hok eq_refl) as [field Hfield].
  destruct (split TAB line) as [|ind [|field' fs]]; try discriminate.
  simpl in Hfield. injection Hfield as ->. simpl. apply cmd_protocols_eq.
Qed.

Lemma cmd_line_not_ok (listdir : string → option (list string))
  (wdir line : string) (R : res_dic) :
  ¬ line_ok line → cmd_line listdir wdir line R = (R, Raised IndexError).
Proof.
  unfold line_ok, cmd_line. intros Hbad.
  destruct (startswith line "trio"); [|exfalso; apply Hbad; discriminate].
  destruct (split TAB line) as [|ind [|field fs]] eqn:E; simpl; try reflexivity.
  exfalso. apply Hbad. intros _. simpl. eauto.
Qed.

Lemma cmd_lines_eq (listdir : string → option (list string))
  (wdir : string) (lines : list string) (R : res_dic) :
  Forall line_ok lines →
  cmd_lines listdir wdir lines R
  = (foldl (assign_protocol listdir wdir) R (metadata_pairs lines), Returned tt).
Proof.
  unfold metadata_pairs. intros Hok. revert R.
  induction Hok as [|line rest Hline _ IH]; intros R; cbn [cmd_lines flat_map];
    [reflexivity|].
  rewrite cmd_line_eq by exact Hline. rewrite foldl_app. apply IH.
Qed.

(** On well-formed lines the collector returns, and its mapping is the
    outcome of the assignments of the pass, in order. *)
Lemma create_matrice_directory_eq (listdir : string → option (list string))
  (wdir : string) (lines : list string) :
  Forall line_ok lines →
  create_matrice_directory listdir wdir lines
  = Returned (foldl (assign_protocol listdir wdir) RES_DIC_init (metadata_pairs lines)).
Proof.
  intros Hok. unfold create_matrice_directory. rewrite cmd_lines_eq by exact Hok.
  reflexivity.
Qed.

Lemma assign_pass_keys (listdir : string → option (list string)) (wdir : string)
  (pairs : list (string * string)) (R : res_dic) :
  map fst (foldl (assign_protocol listdir wdir) R pairs) = map fst R.
Proof.
  revert R. induction pairs as [|ip rest IH]; intros R; cbn [foldl]; [reflexivity|].
  rewrite IH. unfold assign_protocol. rewrite map_map. reflexivity.
Qed.

Lemma res_get_assign (listdir : string → option (list string)) (wdir : string)
  (ip : string * string) (R : res_dic) (k : N) :
  k ∈ map fst R →
  res_get (assign_protocol listdir wdir R ip) k
  = setitem ip.2 (scan_result listdir wdir ip.1 ip.2 k) (res_get R k).
Proof.
  unfold assign_protocol. induction R as [|[k0 d] R IH]; cbn [map fst res_get].
  - intros H. inversion H.
  - intros Hin. simpl. destruct (N.eqb k0 k) eqn:E.
    + apply N.eqb_eq in E as ->. reflexivity.
    + apply N.eqb_neq in E. apply IH. apply elem_of_cons in Hin as [?|?]; [done|auto].
Qed.

(** The sub-mapping of a resolution after a pass. *)
Lemma res_get_assign_pass (listdir : string → option (list string)) (wdir : string)
  (pairs : list (string * string)) (R : res_dic) (k : N) :
  k ∈ map fst R →
  res_get (foldl (assign_protocol listdir wdir) R pairs) k
  = foldl (λ d ip, setitem ip.2 (scan_result listdir wdir ip.1 ip.2 k) d)
          (res_get R k) pairs.
Proof.
  revert R. induction pairs as [|ip rest IH]; intros R Hin; cbn [foldl];
    [reflexivity|].
  rewrite IH.
  - rewrite res_get_assign by exact Hin. reflexivity.
  - unfold assign_protocol. rewrite map_map. exact Hin.
Qed.

Lemma keys_foldl_eq {V : Type} (v : string * string → V)
  (pairs : list (string * string)) (d : dict V) :
  keys (foldl (λ d ip, setitem ip.2 (v ip) d) d pairs)
  = foldl add_key (keys d) (map snd pairs).
Proof.
  revert d. induction pairs as [|[ind p] rest IH]; intros d; cbn [foldl map];
    [reflexivity|].
  rewrite IH, keys_setitem. reflexivity.
Qed.

Lemma res_get_init (k : N) : k ∈ RES_KEYS → res_get RES_DIC_init k = [].
Proof.
  unfold RES_KEYS. rewrite !elem_of_cons, elem_of_nil.
  intros [->|[->|[->|[->|[]]]]]; reflexivity.
Qed.

(** The mapping the collector returns, resolution by resolution. *)
Lemma collector_returns (listdir : string → option (list string))
  (wdir : string) (lines : list string) :
  Forall line_ok lines →
  ∃ R, create_matrice_directory listdir wdir lines = Returned R
       ∧ map fst R = RES_KEYS
       ∧ ∀ k, k ∈ RES_KEYS →
           res_get R k
           = foldl (λ d ip, setitem ip.2 (scan_result listdir wdir ip.1 ip.2 k) d)
                   [] (metadata_pairs lines).
Proof.
  intros Hok. eexists. split; [apply create_matrice_directory_eq, Hok|].
  split; [rewrite assign_pass_keys; reflexivity|].
  intros k Hk. rewrite res_get_assign_pass by exact Hk.
  rewrite res_get_init by exact Hk. reflexivity.
Qed.

Lemma collector_getitem (listdir : string → option (list string))
  (wdir : string) (lines : list string) (k : N) (p : string) :
  getitem p (foldl (λ d ip, setitem ip.2 (scan_result listdir wdir ip.1 ip.2 k) d)
                   [] (metadata_pairs lines))
  = match last_indiv p (metadata_pairs lines) with
    | Some ind => Some (scan_result listdir wdir ind p k)
    | None => None
    end.
Proof.
  rewrite (getitem_foldl (λ ip, scan_result listdir wdir ip.1 ip.2 k)).
  reflexivity.
Qed.

Lemma flat_map_ext_elem {A B : Type} (f g : A → list B) (l : list A) :
  (∀ a, a ∈ l → f a = g a) → flat_map f l = flat_map g l.
Proof.
  induction l as [|a l IH]; intros Hfg; simpl; [reflexivity|].
  rewrite Hfg by (apply elem_of_cons; auto). f_equal.
  apply IH. intros b Hb. apply Hfg, elem_of_cons. auto.
Qed.

(** A prefix with no tab in it is looked for in the first field of a row. *)
Lemma startswith_before_tab (p ind rest : string) :
  Forall (λ x, x ≠ TAB) (list_ascii_of_string p) →
  startswith (ind +:+ String TAB rest) p = startswith ind p.
Proof.
  revert ind. induction p as [|x p IH]; intros ind Hp; [reflexivity|].
  cbn [list_ascii_of_string] in Hp. apply Forall_cons in Hp as [Hx Hp].
  destruct ind as [|a ind].
  - change ("" +:+ String TAB rest) with (String TAB rest). cbn [startswith].
    destruct (Ascii.eqb x TAB) eqn:E; [|reflexivity].
    apply Ascii.eqb_eq in E. contradiction.
  - change (String a ind +:+ String TAB rest)
      with (String a (ind +:+ String TAB rest)).
    cbn [startswith]. rewrite IH by exact Hp. reflexivity.
Qed.

(** A row starts with [trio] exactly when its individual id does. *)
Lemma startswith_row (ind prots : string) :
  startswith (ind +:+ tab +:+ prots) "trio" = startswith ind "trio".
Proof.
  apply (startswith_before_tab "trio" ind prots).
  repeat constructor; discriminate.
Qed.

(** C10: the collector takes a metadata line apart only if it starts with
    [trio]: any other line leaves the mapping as it is and raises nothing,
    so the pass is the pass over the [trio] lines alone; the header is such
    a line, and so is every row whose individual id does not start with
    [trio]. *)
Theorem collector_skips_other_lines (listdir : string → option (list string))
  (wdir : string) (lines : list string) :
  (∀ line R, startswith line "trio" = false →
             cmd_line listdir wdir line R = (R, Returned tt))
  ∧ create_matrice_directory listdir wdir lines
    = create_matrice_directory listdir wdir
        (filter (λ line, Is_true (startswith line "trio")) lines)
  ∧ startswith metadata_header "trio" = false
  ∧ ∀ ind prots R, startswith ind "trio" = false →
                   cmd_line listdir wdir (ind +:+ tab +:+ prots) R = (R, Returned tt).
Proof.
  assert (Hskip : ∀ line R, startswith line "trio" = false →
                            cmd_line listdir wdir line R = (R, Returned tt)).
  { intros line R Hs. unfold cmd_line. rewrite Hs. reflexivity. }
  split; [exact Hskip|]. split; [|split; [reflexivity|]].
  - unfold create_matrice_directory. f_equal.
    generalize RES_DIC_init. induction lines as [|line rest IH]; intros R;
      [reflexivity|].
    rewrite filter_cons. destruct (startswith line "trio") eqn:Hs.
    + rewrite decide_True by exact I. cbn [cmd_lines].
      destruct (cmd_line listdir wdir line R) as [R' [[]|e]]; [apply IH | reflexivity].
    + rewrite decide_False by exact id. cbn [cmd_lines].
      rewrite Hskip by exact Hs. apply IH.
  - intros ind prots R Hs. apply Hskip. rewrite startswith_row. exact Hs.
Qed.

Lemma collector_skips_other_lines_witness :
  cmd_line no_results_dir "/w/" ("A.001" +:+ tab +:+ "HiC" +:+ nl) RES_DIC_init
  = (RES_DIC_init, Returned tt).
Proof.
  apply (collector_skips_other_lines no_results_dir "/w/" []). reflexivity.
Defined.

(** C6: when the results directory of an (individual, protocol) pair is
    missing, the turn of the protocol loop raises nothing: it leaves the
    protocol with an empty list at every resolution, touches no other
    protocol, and the loop goes on with the remaining protocols. *)
Theorem missing_results_dir_skipped (listdir : string → option (list string))
  (wdir ind pt : string) (R : res_dic) :
  listdir (results_dir wdir ind (remove_char NL pt)) = None →
  ∃ R', cmd_protocol listdir wdir ind pt R = (R', Returned tt)
        ∧ map fst R' = map fst R
        ∧ (∀ k, k ∈ map fst R →
                getitem (remove_char NL pt) (res_get R' k) = Some [])
        ∧ (∀ k p, k ∈ map fst R → p ≠ remove_char NL pt →
                  getitem p (res_get R' k) = getitem p (res_get R k))
        ∧ ∀ rest, cmd_protocols listdir wdir ind (pt :: rest) R
                  = cmd_protocols listdir wdir ind rest R'.
Proof.
  intros Hls. eexists. split; [apply cmd_protocol_eq|].
  split; [unfold assign_protocol; rewrite map_map; reflexivity|].
  split; [|split].
  - intros k Hk. rewrite res_get_assign by exact Hk. cbn [fst snd].
    rewrite getitem_setitem, string_eqb_refl. unfold scan_result.
    rewrite Hls. reflexivity.
  - intros k p Hk Hp. rewrite res_get_assign by exact Hk. cbn [fst snd].
    rewrite getitem_setitem, string_eqb_false by auto. reflexivity.
  - intros rest. cbn [cmd_protocols]. rewrite cmd_protocol_eq. reflexivity.
Qed.

Lemma missing_results_dir_skipped_witness :
  ∃ R', cmd_protocol no_results_dir "/w/" "trio.A" "HiC" RES_DIC_init
        = (R', Returned tt)
        ∧ getitem "HiC" (res_get R' 1000000) = Some [].
Proof.
  destruct (missing_results_dir_skipped no_results_dir "/w/" "trio.A" "HiC"
              RES_DIC_init eq_refl) as (R' & Hret & _ & Hempty & _).
  exists R'. split; [exact Hret|]. apply (Hempty 1000000%N). vm_compute.
  apply elem_of_cons. auto.
Defined.

(** C4: in a pass, what a resolution holds for a protocol is what the scan
    of the results directory of the last individual listed with that
    protocol found, whatever the earlier scans of the pass had recorded; and
    that scan keeps every matching file of its directory, in the order of
    the listing. *)
Theorem last_scan_replaces (listdir : string → option (list string))
  (wdir : string) (lines : list string)
  (before after : list (string * string)) (ind key : string) (k : N) :
  Forall line_ok lines →
  metadata_pairs lines = before ++ (ind, key) :: after →
  key ∉ map snd after →
  k ∈ RES_KEYS →
  ∃ R, create_matrice_directory listdir wdir lines = Returned R
       ∧ getitem key (res_get R k) = Some (scan_result listdir wdir ind key k)
       ∧ ∀ files, listdir (results_dir wdir ind key) = Some files →
           scan_result listdir wdir ind key k
           = map (matrix_path wdir ind key)
               (filter (λ mat, Is_true (re_search
                                  (compile (str_of_int k +:+ ".matrix.h5")) mat))
                       files)
           ∧ ∀ mat, mat ∈ files →
                    re_search (compile (str_of_int k +:+ ".matrix.h5")) mat = true →
                    matrix_path wdir ind key mat ∈ scan_result listdir wdir ind key k.
Proof.
  intros Hok Hsplit Hafter Hk.
  destruct (collector_returns listdir wdir lines Hok) as (R & Hret & _ & Hget).
  exists R. split; [exact Hret|]. split.
  - rewrite (Hget k Hk), collector_getitem.
    rewrite (proj2 (last_indiv_split key ind (metadata_pairs lines))) by eauto.
    reflexivity.
  - intros files Hls. unfold scan_result. rewrite Hls. unfold matching_paths.
    split; [reflexivity|].
    intros mat Hin Hm. apply list_elem_of_fmap. exists mat. split; [reflexivity|].
    apply list_elem_of_filter. rewrite Hm. split; [exact I | exact Hin].
Qed.

Lemma last_scan_replaces_witness :
  ∃ R, create_matrice_directory two_results_dirs "/w/" two_row_metadata = Returned R
       ∧ getitem "HiC" (res_get R 1000000)
         = Some ["/w/trio.B.HiC/hic_results/matrix/h5df/y_1000000.matrix.h5";
                 "/w/trio.B.HiC/hic_results/matrix/h5df/z_1000000.matrix.h5"].
Proof.
  destruct (last_scan_replaces two_results_dirs "/w/" two_row_metadata
              [("trio.A", "HiC")] [] "trio.B" "HiC" 1000000%N)
    as (R & Hret & Hget & _).
  - repeat constructor; intros _; vm_compute; eauto.
  - vm_compute. reflexivity.
  - apply not_elem_of_nil.
  - apply elem_of_cons. auto.
  - exists R. split; [exact Hret|]. rewrite Hget. vm_compute. reflexivity.
Defined.

Lemma add_key_pass (ps : list string) (ks : list string) :
  (∀ p, p ∈ foldl add_key ks ps ↔ p ∈ ks ∨ p ∈ ps)
  ∧ (NoDup ks → NoDup (foldl add_key ks ps)).
Proof.
  revert ks. induction ps as [|q ps IH]; intros ks; cbn [foldl].
  - split; [|auto]. intros p. rewrite elem_of_nil. tauto.
  - destruct (IH (add_key ks q)) as [Hin Hnd]. unfold add_key in *. split.
    + intros p. rewrite Hin, elem_of_cons.
      destruct (bool_decide (q ∈ ks)) eqn:B.
      * apply bool_decide_eq_true in B. split; [tauto|].
        intros [?|[->|?]]; auto.
      * rewrite elem_of_app, list_elem_of_singleton. tauto.
    + intros Hks. apply Hnd. destruct (bool_decide (q ∈ ks)) eqn:B; [exact Hks|].
      apply bool_decide_eq_false in B. apply NoDup_app. split; [exact Hks|].
      split; [|apply NoDup_singleton].
      intros x Hx Hx'. apply list_elem_of_singleton in Hx' as ->. auto.
Qed.

(** The protocol keys of the returned mapping: the same at every
    resolution, each protocol listed in a processed row once, with what the
    last scan for it found. *)
Lemma collector_protocol_keys (listdir : string → option (list string))
  (wdir : string) (lines : list string) :
  Forall line_ok lines →
  ∃ R prots, create_matrice_directory listdir wdir lines = Returned R
       ∧ map fst R = RES_KEYS
       ∧ NoDup prots
       ∧ (∀ p, p ∈ prots ↔ p ∈ map snd (metadata_pairs lines))
       ∧ (∀ res, res ∈ RES_KEYS → keys (res_get R res) = prots)
       ∧ (∀ res p, res ∈ RES_KEYS → p ∈ prots →
                   getitem p (res_get R res)
                   = Some (collected listdir wdir lines res p)).
Proof.
  intros Hok.
  destruct (collector_returns listdir wdir lines Hok) as (R & Hret & Hkeys & Hget).
  exists R, (foldl add_key [] (map snd (metadata_pairs lines))).
  destruct (add_key_pass (map snd (metadata_pairs lines)) []) as [Hin Hnd].
  split; [exact Hret|]. split; [exact Hkeys|]. split; [apply Hnd, NoDup_nil_2|].
  split; [|split].
  - intros p. rewrite Hin, elem_of_nil. tauto.
  - intros res Hres. rewrite (Hget res Hres).
    apply (keys_foldl_eq (λ ip, scan_result listdir wdir ip.1 ip.2 res)).
  - intros res p Hres Hp. rewrite (Hget res Hres), collector_getitem.
    unfold collected. apply Hin in Hp as [Hp|Hp]; [inversion Hp|].
    apply last_indiv_Some in Hp as [ind ->]. reflexivity.
Qed.

Lemma scan_result_found (listdir : string → option (list string))
  (wdir ind key : string) (k : N) :
  scan_result listdir wdir ind key k ≠ [] →
  ∃ files mat, listdir (results_dir wdir ind key) = Some files
               ∧ mat ∈ files
               ∧ re_search (compile (str_of_int k +:+ ".matrix.h5")) mat = true.
Proof.
  unfold scan_result, matching_paths.
  destruct (listdir (results_dir wdir ind key)) as [files|]; [|done].
  intros Hne. exists files.
  destruct (filter _ files) as [|mat ms] eqn:F; [done|].
  assert (Hin : mat ∈ filter (λ mat, Is_true (re_search
                   (compile (str_of_int k +:+ ".matrix.h5")) mat)) files).
  { rewrite F. apply elem_of_cons. auto. }
  apply list_elem_of_filter in Hin as [Hm Hin]. exists mat.
  split; [reflexivity|]. split; [exact Hin|]. apply Is_true_true. exact Hm.
Qed.

(** C3 (as amended): the returned mapping has exactly the four resolution
    keys; in each sub-mapping the protocol keys are the protocols listed in
    the processed rows, whether or not a file was found for them; and the
    list of a protocol is non-empty only if the scan of the last assignment
    for that protocol found a matching file. *)
Theorem collector_mapping_keys (listdir : string → option (list string))
  (wdir : string) (lines : list string) :
  Forall line_ok lines →
  ∃ R, create_matrice_directory listdir wdir lines = Returned R
       ∧ map fst R = [1000000%N; 500000%N; 200000%N; 50000%N]
       ∧ ∀ k, k ∈ RES_KEYS →
           NoDup (keys (res_get R k))
           ∧ (∀ p, p ∈ keys (res_get R k) ↔ p ∈ map snd (metadata_pairs lines))
           ∧ ∀ p paths, getitem p (res_get R k) = Some paths →
               ∃ ind, last_indiv p (metadata_pairs lines) = Some ind
                      ∧ paths = scan_result listdir wdir ind p k
                      ∧ (paths ≠ [] →
                         ∃ files mat,
                           listdir (results_dir wdir ind p) = Some files
                           ∧ mat ∈ files
                           ∧ re_search (compile (str_of_int k +:+ ".matrix.h5")) mat
                             = true).
Proof.
  intros Hok.
  destruct (collector_protocol_keys listdir wdir lines Hok)
    as (R & prots & Hret & Hkeys & Hnd & Hin & Hsame & Hget).
  exists R. split; [exact Hret|]. split; [exact Hkeys|].
  intros k Hk. rewrite (Hsame k Hk). split; [exact Hnd|]. split; [exact Hin|].
  intros p paths Hp.
  assert (Hpk : p ∈ prots).
  { rewrite <- (Hsame k Hk). apply getitem_is_Some. rewrite Hp. eauto. }
  rewrite (Hget k p Hk Hpk) in Hp. injection Hp as <-.
  apply Hin, last_indiv_Some in Hpk as [ind Hind].
  exists ind. unfold collected. rewrite Hind. split; [reflexivity|].
  split; [reflexivity|]. apply scan_result_found.
Qed.

Lemma collector_mapping_keys_witness :
  ∃ R, create_matrice_directory no_results_dir "/w/" one_row_metadata = Returned R
       ∧ keys (res_get R 1000000) = ["HiC"]
       ∧ getitem "HiC" (res_get R 1000000) = Some [].
Proof.
  destruct (collector_mapping_keys no_results_dir "/w/" one_row_metadata)
    as (R & Hret & _ & _).
  { repeat constructor; intros H; vm_compute in H |- *; eauto; discriminate. }
  exists R. split; [exact Hret|].
  vm_compute in Hret. injection Hret as <-. split; reflexivity.
Defined.

(** C3 (as stated) fails: with one row for [HiC] and no results directory,
    [HiC] is a key at every resolution although no file was found. *)
Lemma protocol_key_without_match :
  ∃ R, create_matrice_directory no_results_dir "/w/" one_row_metadata = Returned R
       ∧ ¬ key_only_if_found no_results_dir "/w/" one_row_metadata R.
Proof.
  eexists. split; [vm_compute; reflexivity|].
  intros H. destruct (H 1000000%N "HiC") as (ind & _ & Hne).
  - vm_compute. apply elem_of_cons. auto.
  - apply Hne. reflexivity.
Qed.

(** ** The summation loop *)

(** C2 (as amended): the summation command is given to the shell once for
    every resolution and every protocol key of the mapping, that is for
    every protocol listed in a processed row, at each of the four
    resolutions, whether its list is empty or not: [--matrices] gets the
    collected paths joined by spaces and the output is
    [hic_dir+protocol+_+resolution+.h5]. *)
Theorem sum_invoked_for_every_key (listdir : string → option (list string))
  (wdir hic_dir : string) (lines : list string) :
  Forall line_ok lines →
  ∃ R prots, create_matrice_directory listdir wdir lines = Returned R
       ∧ NoDup prots
       ∧ (∀ p, p ∈ prots ↔ p ∈ map snd (metadata_pairs lines))
       ∧ (∀ res p, res ∈ RES_KEYS → p ∈ prots →
                   getitem p (res_get R res)
                   = Some (collected listdir wdir lines res p))
       ∧ sum_all_matrices hic_dir R
         = flat_map (λ res,
             map (λ prot, "hicSumMatrices --matrices "
                          +:+ join " " (collected listdir wdir lines res prot)
                          +:+ " --outFileName "
                          +:+ hic_dir +:+ prot +:+ "_" +:+ str_of_int res +:+ ".h5")
                 prots)
             [1000000%N; 500000%N; 200000%N; 50000%N].
Proof.
  intros Hok.
  destruct (collector_protocol_keys listdir wdir lines Hok)
    as (R & prots & Hret & Hkeys & Hnd & Hin & Hsame & Hget).
  exists R, prots. split; [exact Hret|]. split; [exact Hnd|].
  split; [exact Hin|]. split; [exact Hget|].
  unfold sum_all_matrices. rewrite Hkeys. apply flat_map_ext_elem.
  intros res Hres. rewrite (Hsame res Hres). apply map_ext_in.
  intros prot Hprot. apply list_elem_of_In in Hprot.
  rewrite (Hget res prot Hres Hprot). reflexivity.
Qed.

Lemma sum_invoked_for_every_key_witness :
  ∃ R, create_matrice_directory no_results_dir "/w/" one_row_metadata = Returned R
       ∧ sum_all_matrices "hic/" R
         = ["hicSumMatrices --matrices  --outFileName hic/HiC_1000000.h5";
            "hicSumMatrices --matrices  --outFileName hic/HiC_500000.h5";
            "hicSumMatrices --matrices  --outFileName hic/HiC_200000.h5";
            "hicSumMatrices --matrices  --outFileName hic/HiC_50000.h5"].
Proof.
  destruct (sum_invoked_for_every_key no_results_dir "/w/" "hic/" one_row_metadata)
    as (R & prots & Hret & _ & _ & _ & Hsum).
  { repeat constructor; intros H; vm_compute in H |- *; eauto; discriminate. }
  exists R. split; [exact Hret|].
  vm_compute in Hret. injection Hret as <-. reflexivity.
Defined.

(** C2 (as stated) fails: with one row for [HiC] and no results directory,
    the list of [HiC] is empty at every resolution and the command is run
    all the same. *)
Lemma sum_invoked_on_empty_list :
  ∃ R, create_matrice_directory no_results_dir "/w/" one_row_metadata = Returned R
       ∧ ¬ invoked_only_if_nonempty "hic/" R.
Proof.
  eexists. split; [vm_compute; reflexivity|].
  intros H. apply (H 1000000%N "HiC" []); [reflexivity | | reflexivity].
  vm_compute. apply elem_of_cons. auto.
Qed.

(** ** More on strings *)

Lemma string_app_cons (x : ascii) (a b : string) :
  String x a +:+ b = String x (a +:+ b).
Proof. reflexivity. Qed.

Lemma string_app_assoc (a b c : string) : (a +:+ b) +:+ c = a +:+ (b +:+ c).
Proof.
  induction a as [|x a IH]; [reflexivity|].
  rewrite !string_app_cons, IH. reflexivity.
Qed.

Lemma drop_last_snoc (s : string) (c : ascii) : drop_last (s +:+ String c "") = s.
Proof.
  induction s as [|a s IH]; [reflexivity|].
  change (String a s +:+ String c "") with (String a (s +:+ String c "")).
  cbn [drop_last]. rewrite IH. destruct s; reflexivity.
Qed.

Lemma join_cons_cons (sep x y : string) (l : list string) :
  String.concat sep (x :: y :: l) = x +:+ sep +:+ String.concat sep (y :: l).
Proof. reflexivity. Qed.

(** The accumulated protocols are the protocols joined by commas, with a
    comma at the end, which the flush trims. *)
Lemma accumulate_join (q : string) (qs : list string) :
  accumulate (q +:+ ",") qs = join "," (q :: qs) +:+ ",".
Proof.
  unfold accumulate, join. revert q. induction qs as [|q' qs IH]; intros q.
  - reflexivity.
  - cbn [foldl]. 
    assert (Hfold : ∀ P Q, foldl (λ P q0, P +:+ q0 +:+ ",") (P +:+ Q) qs
                           = P +:+ foldl (λ P q0, P +:+ q0 +:+ ",") Q qs).
    { clear. induction qs as [|x qs IHq]; intros P Q; cbn [foldl]; [reflexivity|].
      rewrite <- IHq, string_app_assoc. reflexivity. }
    change ((q +:+ ",") +:+ q' +:+ ",") with ((q +:+ ",") +:+ (q' +:+ ",")).
    rewrite Hfold, IH, (join_cons_cons "," q q' qs).
    rewrite !string_app_assoc. reflexivity.
Qed.

Lemma flush_row (i q : string) (qs : list string) :
  drop_last (i +:+ tab +:+ accumulate (q +:+ ",") qs) +:+ nl
  = metadata_row i (q :: qs).
Proof.
  rewrite accumulate_join. unfold metadata_row.
  rewrite <- !string_app_assoc. rewrite drop_last_snoc.
  reflexivity.
Qed.

Lemma split_not_nil (sep : ascii) (s : string) : split sep s ≠ [].
Proof.
  destruct s as [|c s]; simpl; [discriminate|].
  destruct (Ascii.eqb c sep); [discriminate|].
  destruct (split sep s); discriminate.
Qed.

(** The fields of a split hold no separator. *)
Lemma split_fields_free (sep : ascii) (s : string) :
  Forall (λ f, split sep f = [f]) (split sep s).
Proof.
  induction s as [|c s IH]; cbn [split].
  - repeat constructor.
  - destruct (Ascii.eqb c sep) eqn:E.
    + constructor; [reflexivity | exact IH].
    + destruct (split sep s) as [|f fs].
      * constructor; [|constructor]. cbn [split]. rewrite E. reflexivity.
      * apply Forall_cons in IH as [Hf Hfs]. constructor; [|exact Hfs].
        cbn [split]. rewrite E, Hf. reflexivity.
Qed.

Lemma split_app_sep (sep : ascii) (t s : string) :
  split sep t = [t] → split sep (t +:+ String sep s) = t :: split sep s.
Proof.
  induction t as [|c t IH].
  - intros _. change ("" +:+ String sep s) with (String sep s).
    cbn [split]. rewrite Ascii.eqb_refl. reflexivity.
  - change (String c t +:+ String sep s) with (String c (t +:+ String sep s)).
    cbn [split]. destruct (Ascii.eqb c sep); [discriminate|].
    destruct (split sep t) as [|f fs] eqn:Et.
    + exfalso. exact (split_not_nil sep t Et).
    + intros [= -> ->]. rewrite IH by reflexivity. reflexivity.
Qed.

(** Joining the fields of a split gives the string back. *)
Lemma join_split (sep : ascii) (s : string) :
  join (String sep "") (split sep s) = s.
Proof.
  unfold join. induction s as [|c s IH]; cbn [split]; [reflexivity|].
  destruct (split sep s) as [|f fs] eqn:Es;
    [exfalso; exact (split_not_nil sep s Es)|].
  destruct (Ascii.eqb c sep) eqn:E.
  - apply Ascii.eqb_eq in E as ->.
    rewrite join_cons_cons, IH. reflexivity.
  - destruct fs as [|f' fs].
    + change (f = s) in IH. subst f. reflexivity.
    + rewrite join_cons_cons in IH |- *. rewrite string_app_cons, IH.
      reflexivity.
Qed.

(** A well-formed name starts with its individual id and a dot, and the two
    fields of the id hold no dot. *)
Lemma well_formed_prefix (dir i : string) :
  well_formed_name dir → indiv_of dir = Some i →
  ∃ t0 t1 rest, i = t0 +:+ "." +:+ t1
                ∧ dir = (i +:+ ".") +:+ rest
                ∧ split "."%char t0 = [t0] ∧ split "."%char t1 = [t1].
Proof.
  unfold well_formed_name, protocol_of, indiv_of. intros [p Hp] Hi.
  pose proof (join_split "."%char dir) as Hjoin.
  pose proof (split_fields_free "."%char dir) as Hfree.
  destruct (split "."%char dir) as [|t0 [|t1 [|t2 fs]]]; try discriminate.
  injection Hi as <-. exists t0, t1, (join "." (t2 :: fs)).
  apply Forall_cons in Hfree as [H0 Hfree]. apply Forall_cons in Hfree as [H1 _].
  split; [reflexivity|]. split; [|auto].
  rewrite <- Hjoin at 1. unfold join.
  rewrite (join_cons_cons "." t0 t1 (t2 :: fs)), (join_cons_cons "." t1 t2 fs).
  rewrite !string_app_assoc. reflexivity.
Qed.

Lemma indiv_of_prefix (t0 t1 rest : string) :
  split "."%char t0 = [t0] → split "."%char t1 = [t1] →
  indiv_of (((t0 +:+ "." +:+ t1) +:+ ".") +:+ rest) = Some (t0 +:+ "." +:+ t1).
Proof.
  intros H0 H1. unfold indiv_of. rewrite !string_app_assoc.
  change ("." +:+ t1 +:+ "." +:+ rest) with (String "." (t1 +:+ String "." rest)).
  rewrite (split_app_sep _ _ _ H0), (split_app_sep _ _ _ H1). reflexivity.
Qed.

(** In the lexicographic order, the strings that start with a given prefix
    are next to each other. *)
Lemma le_prefix_between (P a' c' b : string) :
  String.le (P +:+ a') b → String.le b (P +:+ c') → ∃ b', b = P +:+ b'.
Proof.
  revert b. induction P as [|x P IH]; intros b Hab Hbc.
  - exists b. reflexivity.
  - change (String x P +:+ a') with (String x (P +:+ a')) in Hab.
    change (String x P +:+ c') with (String x (P +:+ c')) in Hbc.
    unfold String.le, String.leb in Hab, Hbc.
    destruct b as [|y b]; [simpl in Hab; contradiction|].
    cbn [String.compare] in Hab, Hbc.
    destruct (Ascii.compare x y) eqn:Exy.
    + pose proof Exy as Eeq. apply Ascii.compare_eq_iff in Eeq as <-.
      rewrite Exy in Hbc.
      destruct (IH b) as [b' ->]; [exact Hab | exact Hbc |].
      exists b'. reflexivity.
    + rewrite (Ascii.compare_antisym y x), Exy in Hbc. simpl in Hbc. contradiction.
    + simpl in Hab. contradiction.
Qed.

(** Between two names of an individual, in the lexicographic order, there
    are only names of that individual. *)
Lemma indiv_between (a b c i : string) :
  well_formed_name a → indiv_of a = Some i →
  well_formed_name c → indiv_of c = Some i →
  String.le a b → String.le b c →
  indiv_of b = Some i.
Proof.
  intros Ha Hia Hc Hic Hab Hbc.
  destruct (well_formed_prefix a i Ha Hia) as (t0 & t1 & ra & Hi & -> & H0 & H1).
  destruct (well_formed_prefix c i Hc Hic) as (_ & _ & rc & _ & -> & _ & _).
  destruct (le_prefix_between _ _ _ _ Hab Hbc) as [rb ->].
  subst i. apply indiv_of_prefix; assumption.
Qed.

(** ** Lists of individuals *)

Lemma elem_of_first_occurrences (x : string) (l : list string) :
  x ∈ first_occurrences l ↔ x ∈ l.
Proof.
  induction l as [|y l IH]; cbn [first_occurrences]; [reflexivity|].
  rewrite !elem_of_cons, list_elem_of_filter, IH.
  destruct (decide (x = y)); tauto.
Qed.

Lemma NoDup_first_occurrences (l : list string) : NoDup (first_occurrences l).
Proof.
  induction l as [|y l IH]; cbn [first_occurrences]; [constructor|].
  constructor; [|apply NoDup_filter, IH].
  rewrite list_elem_of_filter. tauto.
Qed.

Lemma filter_all {A : Type} (P : A → Prop) `{!∀ x, Decision (P x)} (l : list A) :
  Forall P l → filter P l = l.
Proof.
  induction 1 as [|x l Hx _ IH]; [reflexivity|].
  rewrite filter_cons, decide_True by exact Hx. rewrite IH. reflexivity.
Qed.

Lemma filter_twice {A : Type} (P : A → Prop) `{!∀ x, Decision (P x)} (l : list A) :
  filter P (filter P l) = filter P l.
Proof.
  apply filter_all, Forall_forall. intros x Hx.
  apply list_elem_of_filter in Hx. tauto.
Qed.

Lemma protocols_of_absent (i : string) (fields : list (string * string)) :
  i ∉ map fst fields → protocols_of i fields = [].
Proof.
  unfold protocols_of. induction fields as [|[j q] rest IH]; [reflexivity|].
  cbn [map fst]. rewrite not_elem_of_cons. intros [Hne Hrest].
  rewrite filter_cons, decide_False by (simpl; congruence). auto.
Qed.

Lemma expand_groups_cons (g : string * list string) (gs : list (string * list string)) :
  expand_groups (g :: gs) = map (pair g.1) g.2 ++ expand_groups gs.
Proof. reflexivity. Qed.

(** When the entries of each individual are next to each other, the
    individuals with their protocols, taken in order, are the entries. *)
Lemma expand_individuals (fields : list (string * string)) :
  clustered (map fst fields) →
  expand_groups (map (λ id, (id, protocols_of id fields))
                     (first_occurrences (map fst fields)))
  = fields.
Proof.
  induction fields as [|[i p] rest IH]; [reflexivity|].
  cbn [map fst clustered first_occurrences]. intros [Hhead Hcl].
  specialize (IH Hcl). rewrite expand_groups_cons. cbn [fst snd].
  assert (Hp : protocols_of i ((i, p) :: rest) = p :: protocols_of i rest).
  { unfold protocols_of. rewrite filter_cons, decide_True by reflexivity.
    reflexivity. }
  rewrite Hp. cbn [map app]. f_equal.
  assert (Hext : ∀ l, map (λ id, (id, protocols_of id ((i, p) :: rest)))
                          (filter (λ y, y ≠ i) l)
                      = map (λ id, (id, protocols_of id rest))
                            (filter (λ y, y ≠ i) l)).
  { intros l. apply map_ext_in. intros id Hid.
    apply list_elem_of_In, list_elem_of_filter in Hid as [Hne _].
    unfold protocols_of. rewrite filter_cons, decide_False by (simpl; congruence).
    reflexivity. }
  rewrite Hext. clear Hext Hp.
  destruct (decide (i ∈ map fst rest)) as [Hin|Hnot].
  - specialize (Hhead Hin). destruct rest as [|[j q] rest']; [discriminate|].
    cbn [map fst head] in Hhead. injection Hhead as ->.
    cbn [map fst first_occurrences] in IH |- *.
    rewrite filter_cons, decide_False by tauto. rewrite filter_twice.
    rewrite expand_groups_cons in IH. exact IH.
  - rewrite (protocols_of_absent i rest Hnot). cbn [map app].
    rewrite filter_all; [exact IH|].
    apply Forall_forall. intros x Hx Heq. subst x.
    rewrite elem_of_first_occurrences in Hx. exact (Hnot Hx).
Qed.

Lemma name_fields_well_formed (dir : string) :
  well_formed_name dir →
  ∃ i p, name_fields dir = Some (i, p)
         ∧ indiv_of dir = Some i ∧ protocol_of dir = Some p.
Proof.
  intros Hwf. destruct (well_formed_indiv dir Hwf) as [i Hi].
  destruct Hwf as [p Hp]. exists i, p. unfold name_fields. rewrite Hi, Hp. auto.
Qed.

Lemma trio_fields_cons (dir : string) (trio : list string) (i p : string) :
  name_fields dir = Some (i, p) →
  trio_fields (dir :: trio) = (i, p) :: trio_fields trio.
Proof. intros Hf. unfold trio_fields. simpl. rewrite Hf. reflexivity. Qed.

Lemma elem_of_trio_fields (i : string) (trio : list string) :
  i ∈ map fst (trio_fields trio) → ∃ c, c ∈ trio ∧ indiv_of c = Some i.
Proof.
  intros Hin. apply list_elem_of_fmap in Hin as ([j q] & -> & Hin).
  apply list_elem_of_omap in Hin as (c & Hc & Hf). exists c. split; [exact Hc|].
  unfold name_fields in Hf. destruct (indiv_of c); [|discriminate].
  destruct (protocol_of c); [|discriminate]. injection Hf as -> ->. reflexivity.
Qed.

(** In a sorted sequence of well-formed names the entries of each
    individual are next to each other. *)
Lemma sorted_clustered (trio : list string) :
  StronglySorted String.le trio → Forall well_formed_name trio →
  clustered (map fst (trio_fields trio)).
Proof.
  induction 1 as [|a l Hsorted IH Hle]; intros Hwf; [exact I|].
  apply Forall_cons in Hwf as [Ha Hl].
  destruct (name_fields_well_formed a Ha) as (i & p & Hf & Hi & _).
  rewrite (trio_fields_cons a l i p Hf). cbn [map fst clustered].
  split; [|exact (IH Hl)].
  intros Hin. apply elem_of_trio_fields in Hin as (c & Hc & Hic).
  destruct l as [|b l']; [inversion Hc|].
  apply Forall_cons in Hl as [Hb Hl'].
  destruct (name_fields_well_formed b Hb) as (ib & pb & Hfb & Hib & _).
  rewrite (trio_fields_cons b l' ib pb Hfb). cbn [map fst head]. f_equal.
  assert (Hbi : indiv_of b = Some i).
  { apply elem_of_cons in Hc as [->|Hc]; [exact Hic|].
    apply (indiv_between a b c i); auto.
    - rewrite Forall_forall in Hl'. auto.
    - apply Forall_cons in Hle as [Hab _]. exact Hab.
    - apply StronglySorted_inv in Hsorted as [_ Hbl].
      rewrite Forall_forall in Hbl. auto. }
  congruence.
Qed.

(** ** The metadata loop on well-formed names *)

Lemma wm_loop_fields (trio : list string) (st : wm_state) :
  Forall well_formed_name trio →
  wm_loop trio st
  = (foldl (λ st ip, wm_step ip.1 ip.2 st) st (trio_fields trio), Returned tt).
Proof.
  intros Hwf. revert st. induction Hwf as [|a l Ha _ IH]; intros st; [reflexivity|].
  destruct (name_fields_well_formed a Ha) as (i & p & Hf & Hi & Hp).
  rewrite (trio_fields_cons a l i p Hf). cbn [wm_loop foldl fst snd].
  rewrite (wm_body_well_formed a i p st Hi Hp). apply IH.
Qed.

(** The rest of the entries of the current individual. *)
Lemma wm_run (i : string) (qs : list string) (st : wm_state) :
  wm_indiv st = i → qs ≠ [] →
  foldl (λ st ip, wm_step ip.1 ip.2 st) st (map (pair i) qs)
  = WmState i (accumulate (wm_protocols st) qs)
            (Some (i +:+ tab +:+ accumulate (wm_protocols st) qs)) (wm_fh st).
Proof.
  revert st. induction qs as [|q qs IH]; intros st Hi Hne; [done|].
  cbn [map foldl fst snd]. unfold wm_step at 2. rewrite Hi, string_eqb_refl.
  destruct qs as [|q' qs]; [reflexivity|].
  rewrite IH by done. reflexivity.
Qed.

(** The loop over the entries of a list of individuals with at least two
    entries each: every individual but the last has its row written, after
    whatever was pending, and the row of the last is pending. *)
Lemma wm_groups (gs : list (string * list string)) (st : wm_state) :
  NoDup (map fst gs) →
  Forall (λ g, 2 ≤ length g.2) gs →
  wm_indiv st ∉ map fst gs →
  gs ≠ [] →
  ∃ e, wm_entry (foldl (λ st ip, wm_step ip.1 ip.2 st) st (expand_groups gs)) = Some e
       ∧ wm_fh (foldl (λ st ip, wm_step ip.1 ip.2 st) st (expand_groups gs))
           ++ [drop_last e +:+ nl]
         = wm_fh st ++ wm_pending st ++ map (λ g, metadata_row g.1 g.2) gs.
Proof.
  revert st. induction gs as [|[i qs] gs IH]; intros st Hnd Hlen Hst Hgs; [done|].
  clear Hgs.
  cbn [map fst] in Hnd, Hst. apply NoDup_cons in Hnd as [Hi Hnd].
  apply Forall_cons in Hlen as [Hqs Hlen]. apply not_elem_of_cons in Hst as [Hne Hst].
  destruct qs as [|q0 [|q1 qs]]; cbn [snd length] in Hqs; [lia | lia |].
  rewrite expand_groups_cons, foldl_app. cbn [fst snd].
  change (map (pair i) (q0 :: q1 :: qs)) with ((i, q0) :: map (pair i) (q1 :: qs)).
  cbn [foldl fst snd].
  assert (Hfirst : wm_step i q0 st
                   = WmState i (q0 +:+ ",")
                       (match wm_entry st with
                        | Some entry => Some (drop_last entry +:+ nl)
                        | None => None
                        end)
                       (wm_fh st ++ wm_pending st)).
  { unfold wm_step, wm_pending. rewrite (string_eqb_false _ _ Hne).
    destruct (wm_entry st); [reflexivity|]. rewrite app_nil_r. reflexivity. }
  rewrite Hfirst. rewrite wm_run by done. cbn [wm_protocols wm_fh].
  set (st2 := WmState i (accumulate (q0 +:+ ",") (q1 :: qs))
                (Some (i +:+ tab +:+ accumulate (q0 +:+ ",") (q1 :: qs)))
                (wm_fh st ++ wm_pending st)).
  assert (Hpend : wm_pending st2 = [metadata_row i (q0 :: q1 :: qs)]).
  { unfold wm_pending, st2. cbn [wm_entry]. rewrite flush_row. reflexivity. }
  destruct gs as [|g gs'].
  - exists (i +:+ tab +:+ accumulate (q0 +:+ ",") (q1 :: qs)).
    split; [reflexivity|]. cbn [expand_groups flat_map foldl map].
    unfold st2. cbn [wm_fh]. rewrite flush_row, <- app_assoc. reflexivity.
  - destruct (IH st2) as (e & He & Hfh); [exact Hnd | exact Hlen | exact Hi | done |].
    exists e. split; [exact He|]. rewrite Hfh, Hpend.
    unfold st2. cbn [wm_fh map]. rewrite <- !app_assoc. reflexivity.
Qed.

Lemma individuals_ids (trio : list string) :
  map fst (individuals trio) = first_occurrences (map fst (trio_fields trio)).
Proof.
  unfold individuals. rewrite map_map. cbn [fst]. apply map_id.
Qed.

(** C1 (as amended): for every non-empty sorted sequence of trio names in
    which every individual has at least two entries, [write_metadata] writes
    the header followed by exactly one row per distinct individual id (the
    first two dot-delimited fields joined by a dot), each row pairing the id
    with the third fields of its entries joined by commas, in the order
    individuals first appear, and returns.  For the root of the example,
    whose names are [trio.A.001.HiC], [trio.A.001.Capture] and
    [trio.B.002.HiC], the file starts with its only header line followed by
    the row [trio.A<TAB>001,001]. *)
Theorem write_metadata_rows :
  (∀ trio,
     trio ≠ [] →
     Forall well_formed_name trio →
     StronglySorted String.le trio →
     (∀ id, id ∈ map fst (trio_fields trio) →
            2 ≤ length (protocols_of id (trio_fields trio))) →
     write_metadata trio = (metadata_header :: metadata_rows trio, Returned tt))
  ∧ (write_metadata (set_trio example_root)).1 !! 0%nat = Some metadata_header
  ∧ (write_metadata (set_trio example_root)).1 !! 1%nat
    = Some ("trio.A" +:+ tab +:+ "001,001" +:+ nl)
  ∧ filter (λ line, line = metadata_header)
           (write_metadata (set_trio example_root)).1
    = [metadata_header].
Proof.
  split; [|vm_compute; auto].
  intros trio Hne Hwf Hsorted Htwo.
  unfold write_metadata, metadata_rows. rewrite (wm_loop_fields trio _ Hwf).
  pose proof (expand_individuals (trio_fields trio)
                (sorted_clustered trio Hsorted Hwf)) as Hexp.
  fold (individuals trio) in Hexp. rewrite <- Hexp.
  destruct (wm_groups (individuals trio) (WmState "" "" None [metadata_header]))
    as (e & He & Hfh).
  - rewrite individuals_ids. apply NoDup_first_occurrences.
  - apply Forall_forall. intros [id qs] Hg. unfold individuals in Hg.
    apply list_elem_of_fmap in Hg as (id' & [= -> ->] & Hid).
    apply Htwo. rewrite elem_of_first_occurrences in Hid. exact Hid.
  - rewrite individuals_ids, elem_of_first_occurrences. cbn [wm_indiv].
    intros Hin. apply elem_of_trio_fields in Hin as (c & _ & Hc).
    apply indiv_of_not_empty in Hc. apply Hc. reflexivity.
  - destruct trio as [|a l]; [done|]. apply Forall_cons in Hwf as [Ha _].
    destruct (name_fields_well_formed a Ha) as (i & p & Hf & _).
    unfold individuals. rewrite (trio_fields_cons a l i p Hf). discriminate.
  - cbv beta iota zeta. rewrite He, Hfh. reflexivity.
Qed.

Lemma write_metadata_rows_witness :
  write_metadata ["trio.A.Capture"; "trio.A.HiC"; "trio.B.Capture"; "trio.B.HiC"]
  = ([metadata_header; "trio.A" +:+ tab +:+ "Capture,HiC" +:+ nl;
      "trio.B" +:+ tab +:+ "Capture,HiC" +:+ nl], Returned tt).
Proof.
  apply (proj1 write_metadata_rows
           ["trio.A.Capture"; "trio.A.HiC"; "trio.B.Capture"; "trio.B.HiC"]).
  - discriminate.
  - repeat constructor; unfold well_formed_name; vm_compute; eauto.
  - repeat constructor; vm_compute; exact I.
  - intros id Hid. vm_compute in Hid.
    repeat (apply elem_of_cons in Hid as [->|Hid]; [vm_compute; lia|]).
    inversion Hid.
Defined.

(** C1 (as stated) fails on the root of the example: the row of [trio.A],
    whose fields are [trio.A] and [001], is written twice, no row is
    written for [trio.B], and the rows [A.001<TAB>HiC,Capture] and
    [B.002<TAB>HiC] are not written. *)
Lemma write_metadata_example_rows :
  write_metadata (set_trio example_root)
  = ([metadata_header; "trio.A" +:+ tab +:+ "001,001" +:+ nl;
      "trio.A" +:+ tab +:+ "001,001" +:+ nl], Returned tt)
  ∧ write_metadata (set_trio example_root)
    ≠ (metadata_header :: metadata_rows (set_trio example_root), Returned tt)
  ∧ write_metadata (set_trio example_root)
    ≠ ([metadata_header; "A.001" +:+ tab +:+ "HiC,Capture" +:+ nl;
        "B.002" +:+ tab +:+ "HiC" +:+ nl], Returned tt).
Proof.
  split; [vm_compute; reflexivity|]. split; vm_compute; discriminate.
Qed.

(** ** Names and lines outside the assumed form *)

Lemma wm_body_malformed (dir : string) (st : wm_state) :
  ¬ well_formed_name dir → wm_body dir st = (st, Raised IndexError).
Proof.
  unfold well_formed_name, protocol_of, wm_body. intros Hbad.
  destruct (split "."%char dir) as [|t0 [|t1 [|t2 fs]]]; try reflexivity.
  exfalso. apply Hbad. simpl. eauto.
Qed.

(** A name with fewer than three fields makes [write_metadata] raise in the
    loop, at the subscript. *)
Lemma write_metadata_malformed (trio : list string) :
  Exists (λ dir, ¬ well_formed_name dir) trio →
  ∃ written, write_metadata trio = (written, Raised IndexError).
Proof.
  unfold write_metadata. generalize (WmState "" "" None [metadata_header]).
  induction trio as [|a l IH]; intros st Hex; [inversion Hex|].
  cbn [wm_loop].
  destruct (decide (is_Some (protocol_of a))) as [Ha|Ha].
  - destruct (well_formed_indiv a Ha) as [i Hi]. destruct Ha as [p Hp].
    rewrite (wm_body_well_formed a i p st Hi Hp). apply IH.
    apply Exists_cons in Hex as [Hbad|Hex]; [|exact Hex].
    exfalso. apply Hbad. exists p. exact Hp.
  - rewrite (wm_body_malformed a st Ha). eauto.
Qed.

(** A [trio] line with no tab makes the collector raise, at the
    subscript: with [create_matrice_directory_eq], the collector returns
    exactly when every [trio] line has a tab. *)
Lemma create_matrice_directory_raises (listdir : string → option (list string))
  (wdir : string) (lines : list string) :
  Exists (λ line, ¬ line_ok line) lines →
  create_matrice_directory listdir wdir lines = Raised IndexError.
Proof.
  unfold create_matrice_directory. generalize RES_DIC_init.
  induction lines as [|line rest IH]; intros R Hex; [inversion Hex|].
  cbn [cmd_lines].
  assert (Hdec : Decision (line_ok line)) by (unfold line_ok; apply _).
  destruct Hdec as [Hok|Hbad].
  - rewrite (cmd_line_eq listdir wdir line R Hok).
    apply Exists_cons in Hex as [Hbad|Hex]; [contradiction|].
    apply IH. exact Hex.
  - rewrite (cmd_line_not_ok listdir wdir line R Hbad). reflexivity.
Qed.

(** ** Examples *)

Example set_trio_example :
  set_trio ["trio.B.002.HiC"; "metadata.tsv"; "trio.A.001.HiC"; "tri";
            "trio.A.001.Capture"]
  = ["trio.A.001.Capture"; "trio.A.001.HiC"; "trio.B.002.HiC"].
Proof. vm_compute. reflexivity. Qed.

Example resolution_pattern_example :
  re_search (compile (str_of_int 50000 +:+ ".matrix.h5")) "s_50000.matrix.h5" = true
  ∧ re_search (compile (str_of_int 50000 +:+ ".matrix.h5")) "s_500000.matrix.h5" = false
  ∧ re_search (compile (str_of_int 50000 +:+ ".matrix.h5")) "s_50000_matrix_h5" = true.
Proof. vm_compute. auto. Qed.

Example single_name_example :
  write_metadata ["trio.A.HiC"] = ([metadata_header], Raised TypeError).
Proof. reflexivity. Qed.

(** * Further properties *)

(** ** [set_trio]: the order of the listing does not matter *)

(** X1: [os.listdir] gives the names in no particular order; [set_trio]
    returns the same list for two listings with the same names. *)
Theorem set_trio_listing_order (l1 l2 : list string) :
  l1 ≡ₚ l2 → set_trio l1 = set_trio l2.
Proof.
  intros Hperm. unfold set_trio, Py.sort.
  apply (StronglySorted_unique String.le).
  - apply (StronglySorted_merge_sort _).
  - apply (StronglySorted_merge_sort _).
  - rewrite !merge_sort_Permutation. rewrite Hperm. reflexivity.
Qed.

Lemma set_trio_listing_order_witness :
  set_trio ["trio.B.HiC"; "x"; "trio.A.HiC"] = set_trio ["x"; "trio.A.HiC"; "trio.B.HiC"].
Proof.
  apply (set_trio_listing_order ["trio.B.HiC"; "x"; "trio.A.HiC"]
           ["x"; "trio.A.HiC"; "trio.B.HiC"]).
  apply Permutation_cons_app with (l1 := ["x"; "trio.A.HiC"]) (l2 := []).
  reflexivity.
Defined.

(** ** [write_metadata]: when it returns *)

Lemma wm_step_entry (i p : string) (st : wm_state) :
  is_Some (wm_entry st) ∨ wm_indiv st = i → is_Some (wm_entry (wm_step i p st)).
Proof.
  unfold wm_step. intros H. destruct (String.eqb (wm_indiv st) i) eqn:E.
  - cbn [wm_entry]. eauto.
  - apply String.eqb_neq in E. destruct H as [[e He]|Hi]; [|contradiction].
    rewrite He. cbn [wm_entry]. eauto.
Qed.

Lemma wm_step_indiv (i p : string) (st : wm_state) : wm_indiv (wm_step i p st) = i.
Proof.
  unfold wm_step. destruct (String.eqb (wm_indiv st) i) eqn:E.
  - apply String.eqb_eq in E. exact E.
  - destruct (wm_entry st); reflexivity.
Qed.

(** A row is accumulated as soon as two consecutive names share an
    individual id, and it is never forgotten. *)
Lemma wm_loop_share (trio : list string) (st : wm_state) :
  Forall well_formed_name trio →
  is_Some (wm_entry st)
  ∨ (∃ a, head trio = Some a ∧ indiv_of a = Some (wm_indiv st))
  ∨ adjacent_share trio →
  ∃ st', wm_loop trio st = (st', Returned tt) ∧ is_Some (wm_entry st').
Proof.
  intros Hwf. revert st. induction Hwf as [|a l Ha Hl IH]; intros st Hcase.
  - destruct Hcase as [He|[(a & Ha & _)|[]]]; [|discriminate].
    exists st. auto.
  - destruct (name_fields_well_formed a Ha) as (i & p & _ & Hi & Hp).
    cbn [wm_loop]. rewrite (wm_body_well_formed a i p st Hi Hp). apply IH.
    destruct Hcase as [He|[(a' & [= <-] & Hst)|Hadj]].
    + left. apply wm_step_entry. auto.
    + left. apply wm_step_entry. right. congruence.
    + destruct l as [|b l']; [destruct Hadj|].
      destruct Hadj as [(j & Haj & Hbj)|Hadj]; [|auto].
      right. left. exists b. split; [reflexivity|].
      rewrite wm_step_indiv. congruence.
Qed.

Lemma not_adjacent_share (trio : list string) :
  ¬ adjacent_share trio → no_adjacent_share trio.
Proof.
  induction trio as [|a [|b l] IH]; [exact (λ _, I) | exact (λ _, I) |].
  intros Hno. cbn [no_adjacent_share]. split.
  - intros i Ha Hb. apply Hno. left. eauto.
  - apply IH. intros Hadj. apply Hno. right. exact Hadj.
Qed.

(** X2: [write_metadata] returns exactly when every name has its three
    fields and some two consecutive names share an individual id; a name
    with fewer fields makes it raise [IndexError], and otherwise it raises
    [TypeError] at the final flush. *)
Theorem write_metadata_returns_iff (trio : list string) :
  ((∃ written, write_metadata trio = (written, Returned tt))
   ↔ Forall well_formed_name trio ∧ adjacent_share trio)
  ∧ (¬ Forall well_formed_name trio →
     ∃ written, write_metadata trio = (written, Raised IndexError))
  ∧ (Forall well_formed_name trio → ¬ adjacent_share trio →
     write_metadata trio = ([metadata_header], Raised TypeError)).
Proof.
  assert (Hbad : ¬ Forall well_formed_name trio →
                 ∃ written, write_metadata trio = (written, Raised IndexError)).
  { intros Hnot. apply write_metadata_malformed.
    assert (Hdec : ∀ dir, Decision (well_formed_name dir))
      by (intros dir; unfold well_formed_name; apply _).
    apply (not_Forall_Exists _) in Hnot. exact Hnot. }
  assert (Hflush : Forall well_formed_name trio → ¬ adjacent_share trio →
                   write_metadata trio = ([metadata_header], Raised TypeError)).
  { intros Hwf Hno. unfold write_metadata.
    destruct (wm_loop_no_share trio (WmState "" "" None [metadata_header]))
      as (st' & Hl & He & Hf); auto using not_adjacent_share.
    - intros a _ Ha. apply indiv_of_not_empty in Ha. apply Ha. reflexivity.
    - rewrite Hl, He, Hf. reflexivity. }
  split; [|split; assumption]. split.
  - intros [written Hret].
    assert (Hdec : Decision (Forall well_formed_name trio)).
    { apply Forall_dec. intros dir. unfold well_formed_name. apply _. }
    destruct Hdec as [Hwf|Hnot].
    + split; [exact Hwf|].
      assert (Hadj : Decision (adjacent_share trio)).
      { clear. induction trio as [|a [|b l] IH]; cbn [adjacent_share];
          [right; tauto | right; tauto |].
        apply or_dec; [|exact IH].
        destruct (indiv_of a) as [i|]; [|right; intros (? & ? & ?); discriminate].
        destruct (decide (indiv_of b = Some i)) as [Hb|Hb].
        - left. eauto.
        - right. intros (j & [= <-] & Hj). contradiction. }
      destruct Hadj as [Hadj|Hno]; [exact Hadj|].
      rewrite (Hflush Hwf Hno) in Hret. discriminate.
    + destruct (Hbad Hnot) as [w Hw]. rewrite Hw in Hret. discriminate.
  - intros [Hwf Hadj]. unfold write_metadata.
    destruct (wm_loop_share trio (WmState "" "" None [metadata_header]) Hwf)
      as (st' & Hl & [e He]); [auto|].
    rewrite Hl, He. eauto.
Qed.

Lemma write_metadata_returns_iff_witness :
  ∃ written, write_metadata ["trio.A.Capture"; "trio.A.HiC"] = (written, Returned tt).
Proof.
  apply (proj1 (write_metadata_returns_iff ["trio.A.Capture"; "trio.A.HiC"])).
  split.
  - repeat constructor; unfold well_formed_name; vm_compute; eauto.
  - left. exists "trio.A". split; reflexivity.
Defined.

(** X3: a directory whose name starts with [trio] but has fewer than three
    dot-delimited fields passes [set_trio] and makes [write_metadata] raise
    [IndexError]. *)
Theorem short_trio_name_raises (listing : list string) (name : string) :
  name ∈ listing → startswith name "trio" = true → ¬ well_formed_name name →
  ∃ written, write_metadata (set_trio listing) = (written, Raised IndexError).
Proof.
  intros Hin Hs Hbad. apply write_metadata_malformed, Exists_exists.
  exists name. split; [|exact Hbad].
  unfold set_trio, Py.sort. rewrite merge_sort_Permutation.
  apply list_elem_of_filter. rewrite Hs. split; [exact I | exact Hin].
Qed.

Lemma short_trio_name_raises_witness :
  ∃ written,
    write_metadata (set_trio ["trio.A.HiC"; "trio.A.Capture"; "trio_notes"])
    = (written, Raised IndexError).
Proof.
  apply (short_trio_name_raises
           ["trio.A.HiC"; "trio.A.Capture"; "trio_notes"] "trio_notes").
  - apply elem_of_cons. right. apply elem_of_cons. right. apply elem_of_cons. auto.
  - reflexivity.
  - unfold well_formed_name. vm_compute. intros [x Hx]. discriminate.
Defined.

(** ** [make_subdir]: a name without a second field *)

Lemma make_subdir_app {T : Type} `{!FileSystem T} (hic_dir : string)
  (l1 l2 : list string) (w : world T) :
  make_subdir hic_dir (l1 ++ l2) w
  = match make_subdir hic_dir l1 w with
    | (w', Returned _) => make_subdir hic_dir l2 w'
    | (w', Raised e) => (w', Raised e)
    end.
Proof.
  revert w. induction l1 as [|a l1 IH]; intros w; cbn [app make_subdir];
    [reflexivity|].
  destruct (ms_body hic_dir a w) as [w' [[]|e]]; [apply IH | reflexivity].
Qed.

(** X4: [make_subdir] stops at the first name that has no second
    dot-delimited field: it raises [IndexError] having handled the names
    before it, and the names after it are not looked at. *)
Theorem make_subdir_stops_at_short_name {T : Type} `{!FileSystem T}
  (hic_dir : string) (before after : list string) (bad : string) (w : world T) :
  Forall (λ dir, is_Some (split "."%char dir !! 1%nat)) before →
  split "."%char bad !! 1%nat = None →
  (make_subdir hic_dir before w).2 = Returned tt
  ∧ make_subdir hic_dir (before ++ bad :: after) w
    = ((make_subdir hic_dir before w).1, Raised IndexError).
Proof.
  intros Hbefore Hbad.
  destruct (make_subdir_returns hic_dir before w Hbefore) as [w' Hw'].
  rewrite make_subdir_app, Hw'. split; [reflexivity|].
  cbn [make_subdir fst]. unfold ms_body. rewrite Hbad. reflexivity.
Qed.

Lemma make_subdir_stops_at_short_name_witness :
  ∃ w' : world (gset string),
    make_subdir "hic/" ["trio.A.HiC"; "trio"; "trio.B.HiC"] (World ∅ [] [])
    = (w', Raised IndexError)
    ∧ w_shell w' = ["mkdir -p hic/A"].
Proof.
  destruct (make_subdir_stops_at_short_name "hic/" ["trio.A.HiC"] ["trio.B.HiC"]
              "trio" (World (∅ : gset string) [] [])) as [_ Hstop].
  - repeat constructor. vm_compute. eauto.
  - reflexivity.
  - eexists. split; [exact Hstop|]. vm_compute. reflexivity.
Defined.

(** ** [create_matrice_directory]: when it returns *)

(** X5: [create_matrice_directory] opens [hic_dir + 'metadata.tsv'] outside
    any [try]: when that file cannot be opened the [OSError] comes out.
    Once it is opened, and with no NUL character in [wdir] or in the lines
    (so that [os.listdir] either lists or raises [OSError]), the collector
    returns exactly when every line that starts with [trio] has a tab, and
    raises [IndexError] otherwise: a results directory that is missing or
    cannot be listed never makes it fail. *)
Theorem collector_returns_iff (read_file : string → option (list string))
  (listdir : string → option (list string)) (wdir hic_dir : string) :
  (read_file (hic_dir +:+ "metadata.tsv") = None →
   collect_from_metadata_file read_file listdir wdir hic_dir = Raised OSError)
  ∧ ∀ lines,
      read_file (hic_dir +:+ "metadata.tsv") = Some lines →
      has_no NUL wdir → Forall (has_no NUL) lines →
      ((∃ R, collect_from_metadata_file read_file listdir wdir hic_dir = Returned R)
       ↔ Forall line_ok lines)
      ∧ (¬ Forall line_ok lines →
         collect_from_metadata_file read_file listdir wdir hic_dir
         = Raised IndexError).
Proof.
  unfold collect_from_metadata_file. split; [intros ->; reflexivity|].
  intros lines -> _ _.
  assert (Hbad : ¬ Forall line_ok lines →
                 create_matrice_directory listdir wdir lines = Raised IndexError).
  { intros Hnot. apply create_matrice_directory_raises.
    assert (Hdec : ∀ line, Decision (line_ok line))
      by (intros line; unfold line_ok; apply _).
    apply (not_Forall_Exists _) in Hnot. exact Hnot. }
  split; [|exact Hbad]. split.
  - intros [R HR].
    assert (Hdec : Decision (Forall line_ok lines)).
    { apply Forall_dec. intros line. unfold line_ok. apply _. }
    destruct Hdec as [Hok|Hnot]; [exact Hok|].
    rewrite (Hbad Hnot) in HR. discriminate.
  - intros Hok. eexists. apply create_matrice_directory_eq, Hok.
Qed.

Lemma collector_returns_iff_witness :
  ∃ R, collect_from_metadata_file (λ _, Some one_row_metadata) no_results_dir
         "/w/" "hic/" = Returned R.
Proof.
  destruct (collector_returns_iff (λ _, Some one_row_metadata) no_results_dir
              "/w/" "hic/") as [_ Hopen].
  destruct (Hopen one_row_metadata eq_refl) as [Hiff _].
  - unfold has_no. apply (bool_decide_unpack _). vm_compute. exact I.
  - repeat constructor; unfold has_no; apply (bool_decide_unpack _); vm_compute;
      exact I.
  - apply (proj2 Hiff).
    repeat constructor; intros H; vm_compute in H |- *; eauto; discriminate.
Defined.

(** ** The order and the number of the summations *)

Lemma first_occurrences_filter (P : string → Prop) `{!∀ x, Decision (P x)}
  (l : list string) :
  first_occurrences (filter P l) = filter P (first_occurrences l).
Proof.
  induction l as [|y l IH]; [reflexivity|].
  cbn [first_occurrences]. rewrite !filter_cons.
  destruct (decide (P y)) as [Hy|Hy].
  - cbn [first_occurrences]. rewrite IH. f_equal.
    rewrite !list_filter_filter. apply list_filter_iff. tauto.
  - rewrite IH. rewrite list_filter_filter. apply list_filter_iff.
    intros x. split; [|tauto]. intros Hx. split; [exact Hx|]. congruence.
Qed.

Lemma add_key_first_occurrences (l ks : list string) :
  foldl add_key ks l = ks ++ first_occurrences (filter (λ x, x ∉ ks) l).
Proof.
  revert ks. induction l as [|x l IH]; intros ks; cbn [foldl].
  - rewrite app_nil_r. reflexivity.
  - rewrite IH, filter_cons. unfold add_key.
    destruct (decide (x ∈ ks)) as [Hin|Hnot].
    + rewrite bool_decide_eq_true_2 by exact Hin.
      rewrite decide_False by tauto. reflexivity.
    + rewrite bool_decide_eq_false_2 by exact Hnot.
      rewrite decide_True by exact Hnot. cbn [first_occurrences].
      rewrite <- app_assoc. cbn [app]. do 2 f_equal.
      rewrite <- first_occurrences_filter, list_filter_filter. f_equal.
      apply list_filter_iff. intros y.
      rewrite elem_of_app, list_elem_of_singleton. tauto.
Qed.

Lemma collector_key_order (listdir : string → option (list string))
  (wdir : string) (lines : list string) (res : N) :
  keys (foldl (λ d ip, setitem ip.2 (scan_result listdir wdir ip.1 ip.2 res) d)
              [] (metadata_pairs lines))
  = first_occurrences (map snd (metadata_pairs lines)).
Proof.
  rewrite (keys_foldl_eq (λ ip, scan_result listdir wdir ip.1 ip.2 res)).
  rewrite add_key_first_occurrences. cbn [keys map app]. f_equal.
  apply filter_all, Forall_forall. intros x _. apply not_elem_of_nil.
Qed.

(** X6: the protocol keys of every sub-mapping are the protocols of the
    processed rows in the order they first appear, so the summations are
    run resolution by resolution, in the order 1000000, 500000, 200000,
    50000, and for each resolution protocol by protocol in that order: four
    times as many commands as there are distinct protocols. *)
Theorem sum_commands_order (listdir : string → option (list string))
  (wdir hic_dir : string) (lines : list string) :
  Forall line_ok lines →
  ∃ R, create_matrice_directory listdir wdir lines = Returned R
       ∧ (∀ res, res ∈ RES_KEYS →
                 keys (res_get R res)
                 = first_occurrences (map snd (metadata_pairs lines)))
       ∧ sum_all_matrices hic_dir R
         = flat_map (λ res,
             map (λ prot, sum_command hic_dir res prot
                            (collected listdir wdir lines res prot))
                 (first_occurrences (map snd (metadata_pairs lines))))
             [1000000%N; 500000%N; 200000%N; 50000%N]
       ∧ length (sum_all_matrices hic_dir R)
         = 4 * length (first_occurrences (map snd (metadata_pairs lines))).
Proof.
  intros Hok.
  destruct (collector_returns listdir wdir lines Hok) as (R & Hret & Hkeys & Hget).
  exists R. split; [exact Hret|].
  assert (Hord : ∀ res, res ∈ RES_KEYS →
                 keys (res_get R res)
                 = first_occurrences (map snd (metadata_pairs lines))).
  { intros res Hres. rewrite (Hget res Hres). apply collector_key_order. }
  assert (Hsum : sum_all_matrices hic_dir R
         = flat_map (λ res,
             map (λ prot, sum_command hic_dir res prot
                            (collected listdir wdir lines res prot))
                 (first_occurrences (map snd (metadata_pairs lines))))
             [1000000%N; 500000%N; 200000%N; 50000%N]).
  { unfold sum_all_matrices. rewrite Hkeys. apply flat_map_ext_elem.
    intros res Hres. rewrite (Hord res Hres). apply map_ext_in.
    intros prot Hprot. apply list_elem_of_In in Hprot.
    rewrite (Hget res Hres), collector_getitem. unfold sum_command, collected.
    rewrite elem_of_first_occurrences in Hprot.
    apply last_indiv_Some in Hprot as [ind ->]. reflexivity. }
  split; [exact Hord|]. split; [exact Hsum|].
  rewrite Hsum. cbn [flat_map]. rewrite !length_app, !length_map. simpl. lia.
Qed.

Lemma sum_commands_order_witness :
  ∃ R, create_matrice_directory two_results_dirs "/w/" two_row_metadata = Returned R
       ∧ length (sum_all_matrices "hic/" R) = 4.
Proof.
  destruct (sum_commands_order two_results_dirs "/w/" "hic/" two_row_metadata)
    as (R & Hret & _ & _ & Hlen).
  { repeat constructor; intros H; vm_compute in H |- *; eauto; discriminate. }
  exists R. split; [exact Hret|]. rewrite Hlen. vm_compute. reflexivity.
Defined.

(** ** The output files of the summations *)

Lemma list_ascii_of_string_app (a b : string) :
  list_ascii_of_string (a +:+ b) = list_ascii_of_string a ++ list_ascii_of_string b.
Proof.
  induction a as [|x a IH]; [reflexivity|].
  rewrite string_app_cons. cbn [list_ascii_of_string app]. rewrite IH. reflexivity.
Qed.

Lemma rev_list_ascii_inj (p1 p2 : string) :
  rev (list_ascii_of_string p1) = rev (list_ascii_of_string p2) → p1 = p2.
Proof.
  intros H. apply (f_equal (@rev ascii)) in H. rewrite !rev_involutive in H.
  apply (f_equal string_of_list_ascii) in H.
  rewrite !string_of_list_ascii_of_string in H. exact H.
Qed.

(** Two different (resolution, protocol) pairs never give the same output
    file name. *)
Lemma output_name_inj (hic_dir p1 p2 : string) (res1 res2 : N) :
  res1 ∈ RES_KEYS → res2 ∈ RES_KEYS →
  hic_dir +:+ p1 +:+ "_" +:+ str_of_int res1 +:+ ".h5"
  = hic_dir +:+ p2 +:+ "_" +:+ str_of_int res2 +:+ ".h5" →
  res1 = res2 ∧ p1 = p2.
Proof.
  intros H1 H2 Heq. apply (inj (String.app hic_dir)) in Heq.
  apply (f_equal list_ascii_of_string) in Heq.
  rewrite !list_ascii_of_string_app in Heq.
  apply (f_equal (@rev ascii)) in Heq. rewrite !rev_app_distr in Heq.
  remember (rev (list_ascii_of_string p1)) as a eqn:Ea.
  remember (rev (list_ascii_of_string p2)) as b eqn:Eb.
  unfold RES_KEYS in H1, H2. rewrite !elem_of_cons, elem_of_nil in H1, H2.
  destruct H1 as [->|[->|[->|[->|[]]]]], H2 as [->|[->|[->|[->|[]]]]];
    vm_compute in Heq; try discriminate Heq;
    (split; [reflexivity|]); apply rev_list_ascii_inj; congruence.
Qed.

Lemma NoDup_pairs {A B : Type} (l1 : list A) (l2 : list B) :
  NoDup l1 → NoDup l2 → NoDup (flat_map (λ a, map (pair a) l2) l1).
Proof.
  intros H1 H2. induction H1 as [|a l1 Ha _ IH]; [constructor|].
  cbn [flat_map]. apply NoDup_app. split; [|split; [|exact IH]].
  - apply NoDup_fmap_2; [|exact H2]. intros x y [= ->]. reflexivity.
  - intros [a' b'] Hin Hin'. apply list_elem_of_fmap in Hin as (b0 & [= -> ->] & _).
    apply list_elem_of_In, in_flat_map in Hin' as (a0 & Ha0 & Hb0).
    apply in_map_iff in Hb0 as (b1 & [= -> ->] & _).
    apply Ha, list_elem_of_In, Ha0.
Qed.

Lemma map_flat_map {A B C : Type} (f : B → C) (g : A → list B) (l : list A) :
  map f (flat_map g l) = flat_map (λ a, map f (g a)) l.
Proof.
  induction l as [|a l IH]; [reflexivity|].
  cbn [flat_map]. rewrite map_app, IH. reflexivity.
Qed.

(** X7: every command line the summation loop builds is
    [hicSumMatrices --matrices <paths> --outFileName <file>], and the
    [<file>] texts formatted into the command lines of one run,
    [hic_dir+protocol+_+resolution+.h5], are pairwise different strings.
    This is about the command text handed to [os.system], before the shell
    takes it apart. *)
Theorem sum_outputs_distinct (listdir : string → option (list string))
  (wdir hic_dir : string) (lines : list string) :
  Forall line_ok lines →
  ∃ R, create_matrice_directory listdir wdir lines = Returned R
       ∧ sum_all_matrices hic_dir R
         = map (λ job, "hicSumMatrices --matrices " +:+ job.1
                       +:+ " --outFileName " +:+ job.2)
               (sum_jobs hic_dir R)
       ∧ NoDup (map snd (sum_jobs hic_dir R)).
Proof.
  intros Hok.
  destruct (collector_returns listdir wdir lines Hok) as (R & Hret & Hkeys & Hget).
  exists R. split; [exact Hret|]. split.
  - unfold sum_all_matrices, sum_jobs. rewrite map_flat_map.
    apply flat_map_ext. intros res. rewrite map_map. reflexivity.
  - set (prots := first_occurrences (map snd (metadata_pairs lines))).
    assert (Hjobs : map snd (sum_jobs hic_dir R)
                    = map (λ rp, hic_dir +:+ rp.2 +:+ "_" +:+ str_of_int rp.1 +:+ ".h5")
                          (flat_map (λ res, map (pair res) prots) RES_KEYS)).
    { unfold sum_jobs. rewrite Hkeys, !map_flat_map.
      apply flat_map_ext_elem. intros res Hres.
      rewrite (Hget res Hres), collector_key_order, !map_map. reflexivity. }
    rewrite Hjobs. apply NoDup_fmap_2_strong.
    + intros [r1 q1] [r2 q2] Hin1 Hin2 Heq. cbn [fst snd] in Heq.
      apply list_elem_of_In, in_flat_map in Hin1 as (r1' & Hr1 & Hq1).
      apply in_map_iff in Hq1 as (q1' & [= -> ->] & _).
      apply list_elem_of_In, in_flat_map in Hin2 as (r2' & Hr2 & Hq2).
      apply in_map_iff in Hq2 as (q2' & [= -> ->] & _).
      apply list_elem_of_In in Hr1, Hr2.
      destruct (output_name_inj hic_dir q1 q2 r1 r2 Hr1 Hr2 Heq) as [-> ->].
      reflexivity.
    + apply NoDup_pairs; [|apply NoDup_first_occurrences].
      unfold RES_KEYS. repeat constructor; rewrite ?elem_of_cons, ?elem_of_nil;
        intros H; repeat destruct H as [H|H]; try discriminate H; exact H.
Qed.

Lemma sum_outputs_distinct_witness :
  ∃ R, create_matrice_directory two_results_dirs "/w/" two_row_metadata = Returned R
       ∧ map snd (sum_jobs "hic/" R)
         = ["hic/HiC_1000000.h5"; "hic/HiC_500000.h5"; "hic/HiC_200000.h5";
            "hic/HiC_50000.h5"].
Proof.
  destruct (sum_outputs_distinct two_results_dirs "/w/" "hic/" two_row_metadata)
    as (R & Hret & _ & _).
  { repeat constructor; intros H; vm_compute in H |- *; eauto; discriminate. }
  exists R. split; [exact Hret|].
  vm_compute in Hret. injection Hret as <-. vm_compute. reflexivity.
Defined.

(** ** Which files a scan records *)

Lemma match_here_iff (pattern s : string) :
  match_here (compile pattern) s = true
  ↔ ∃ m suf, s = m +:+ suf ∧ pattern_matches pattern m.
Proof.
  unfold pattern_matches. revert s.
  induction pattern as [|pc pattern IH]; intros s; cbn [compile].
  - split; [|reflexivity]. intros _. exists "", s. split; [reflexivity|constructor].
  - destruct s as [|c s].
    + split.
      * destruct (Ascii.eqb pc "."%char); discriminate.
      * intros (m & suf & Hs & Hm). destruct m as [|c0 m]; [inversion Hm|].
        discriminate.
    + assert (Hstep : match_here ((if Ascii.eqb pc "."%char then AnyChar else Lit pc)
                                    :: compile pattern) (String c s) = true
                      ↔ char_matches pc c ∧ match_here (compile pattern) s = true).
      { unfold char_matches. destruct (Ascii.eqb pc "."%char); cbn [match_here];
          rewrite andb_true_iff.
        - rewrite negb_true_iff, Ascii.eqb_neq. reflexivity.
        - rewrite Ascii.eqb_eq. split; intros [H1 H2]; split; auto. }
      rewrite Hstep, IH. split.
      * intros (Hc & m & suf & -> & Hm). exists (String c m), suf.
        split; [reflexivity|]. cbn [list_ascii_of_string]. constructor; assumption.
      * intros (m & suf & Hs & Hm). destruct m as [|c0 m]; [inversion Hm|].
        rewrite string_app_cons in Hs. injection Hs as -> ->.
        cbn [list_ascii_of_string] in Hm. apply Forall2_cons in Hm as [Hc Hm].
        split; [exact Hc|]. eauto.
Qed.

(** [re.search] finds the pattern anywhere in the name. *)
Lemma re_search_iff (pattern s : string) :
  re_search (compile pattern) s = true
  ↔ ∃ pre m suf, s = pre +:+ m +:+ suf ∧ pattern_matches pattern m.
Proof.
  induction s as [|c s IH]; cbn [re_search]; rewrite orb_true_iff, match_here_iff.
  - split.
    + intros [(m & suf & Hs & Hm)|Hf]; [|discriminate]. exists "", m, suf. auto.
    + intros (pre & m & suf & Hs & Hm). left. destruct pre; [|discriminate].
      exists m, suf. auto.
  - rewrite IH. split.
    + intros [(m & suf & Hs & Hm)|(pre & m & suf & -> & Hm)].
      * exists "", m, suf. auto.
      * exists (String c pre), m, suf. auto.
    + intros (pre & m & suf & Hs & Hm). destruct pre as [|c0 pre].
      * left. exists m, suf. auto.
      * right. rewrite string_app_cons in Hs. injection Hs as -> ->. eauto.
Qed.

(** X8: after the turn of the protocol loop for an individual and a
    protocol whose results directory can be listed, the paths recorded for
    a resolution are exactly the directory path followed by the name of a
    file of the listing that contains, anywhere, the digits of the
    resolution, one character, [matrix], one character, [h5]: the two dots
    of [.matrix.h5] stand for any character but a newline. *)
Theorem scan_records_iff (listdir : string → option (list string))
  (wdir ind pt : string) (R : res_dic) (k : N) (files : list string) (path : string) :
  k ∈ map fst R →
  listdir (results_dir wdir ind (remove_char NL pt)) = Some files →
  path ∈ default [] (getitem (remove_char NL pt)
                       (res_get (cmd_protocol listdir wdir ind pt R).1 k))
  ↔ ∃ mat pre m suf,
      mat ∈ files
      ∧ mat = pre +:+ m +:+ suf
      ∧ pattern_matches (str_of_int k +:+ ".matrix.h5") m
      ∧ path = results_dir wdir ind (remove_char NL pt) +:+ mat.
Proof.
  intros Hk Hls. rewrite cmd_protocol_eq. cbn [fst].
  rewrite res_get_assign by exact Hk. cbn [fst snd].
  rewrite getitem_setitem, string_eqb_refl. cbn [default].
  unfold scan_result. rewrite Hls. unfold matching_paths.
  split.
  - intros Hpath. apply list_elem_of_fmap in Hpath as (mat & -> & Hin).
    apply list_elem_of_filter in Hin as [Hm Hin].
    apply Is_true_true, re_search_iff in Hm as (pre & m & suf & Hmat & Hm).
    exists mat, pre, m, suf. split_and!; auto.
    unfold results_dir. rewrite !string_app_assoc. reflexivity.
  - intros (mat & pre & m & suf & Hin & Hmat & Hm & ->).
    apply list_elem_of_fmap. exists mat. split.
    + unfold results_dir. rewrite !string_app_assoc. reflexivity.
    + apply list_elem_of_filter. split; [|exact Hin].
      apply Is_true_true, re_search_iff. eauto.
Qed.

Lemma scan_records_iff_witness :
  "/w/trio.B.HiC/hic_results/matrix/h5df/y_1000000.matrix.h5"
  ∈ default [] (getitem "HiC"
                  (res_get (cmd_protocol two_results_dirs "/w/" "trio.B" "HiC"
                              RES_DIC_init).1 1000000)).
Proof.
  apply (proj2 (scan_records_iff two_results_dirs "/w/" "trio.B" "HiC" RES_DIC_init
                  1000000%N
                  ["y_1000000.matrix.h5"; "z_1000000.matrix.h5"; "z_50000.matrix.h5"]
                  "/w/trio.B.HiC/hic_results/matrix/h5df/y_1000000.matrix.h5"
                  ltac:(vm_compute; apply elem_of_cons; auto) eq_refl)).
  exists "y_1000000.matrix.h5", "y_", "1000000.matrix.h5", "".
  split_and!; [apply elem_of_cons; auto | reflexivity | | reflexivity].
  unfold pattern_matches. vm_compute.
  repeat constructor; discriminate.
Defined.

(** ** [write_metadata]: what is written, run by run *)

Lemma expand_runs (fields : list (string * string)) :
  expand_groups (runs fields) = fields.
Proof.
  induction fields as [|[i p] rest IH]; [reflexivity|].
  cbn [runs]. destruct (runs rest) as [|[j qs] gs].
  - rewrite <- IH. reflexivity.
  - destruct (String.eqb i j) eqn:E.
    + apply String.eqb_eq in E as ->. rewrite <- IH. reflexivity.
    + rewrite <- IH. reflexivity.
Qed.

Lemma runs_are_ok (fields : list (string * string)) : runs_ok (runs fields).
Proof.
  induction fields as [|[i p] rest IH]; [exact I|].
  cbn [runs]. destruct (runs rest) as [|[j qs] gs].
  - cbn [runs_ok snd]. split_and!; [discriminate | intros ? [=] | exact I].
  - destruct (String.eqb i j) eqn:E.
    + apply String.eqb_eq in E as ->. cbn [runs_ok snd fst] in *.
      destruct IH as (Hqs & Hnext & Hok).
      split_and!; [discriminate | exact Hnext | exact Hok].
    + apply String.eqb_neq in E.
      change (runs_ok ((i, [p]) :: (j, qs) :: gs))
        with ([p] ≠ [] ∧ (∀ g', head ((j, qs) :: gs) = Some g' → g'.1 ≠ i)
              ∧ runs_ok ((j, qs) :: gs)).
      split_and!; [discriminate | | exact IH].
      intros g' [= <-]. cbn [fst]. congruence.
Qed.

Lemma runs_ids (fields : list (string * string)) (g : string * list string) :
  g ∈ runs fields → g.1 ∈ map fst fields.
Proof.
  revert g. induction fields as [|[i p] rest IH]; intros g; cbn [runs map fst].
  - intros H. inversion H.
  - rewrite elem_of_cons. destruct (runs rest) as [|[j qs] gs].
    + intros Hg. apply list_elem_of_singleton in Hg as ->. auto.
    + destruct (String.eqb i j) eqn:E.
      * apply String.eqb_eq in E as ->. intros Hg.
        apply elem_of_cons in Hg as [->|Hg]; [auto|].
        right. apply IH. apply elem_of_cons. auto.
      * intros Hg. apply elem_of_cons in Hg as [->|Hg]; [auto|].
        right. apply IH. exact Hg.
Qed.

Lemma wm_pending_flushed (st : wm_state) (ind protocols : string) (fh : list string) :
  wm_pending (WmState ind protocols
                (match wm_entry st with
                 | Some entry => Some (drop_last entry +:+ nl)
                 | None => None
                 end) fh)
  = wm_pending st.
Proof.
  unfold wm_pending. cbn [wm_entry]. destruct (wm_entry st) as [e|]; [|reflexivity].
  unfold nl. rewrite drop_last_snoc. reflexivity.
Qed.

(** The loop over the entries of a list of runs. *)
Lemma wm_runs (gs : list (string * list string)) (st : wm_state)
  (carry : option (string * list string)) :
  runs_ok gs →
  (∀ g, head gs = Some g → wm_indiv st ≠ g.1) →
  wm_pending st = option_list ((λ g, metadata_row g.1 g.2) <$> carry) →
  wm_fh (foldl (λ st ip, wm_step ip.1 ip.2 st) st (expand_groups gs))
    ++ wm_pending (foldl (λ st ip, wm_step ip.1 ip.2 st) st (expand_groups gs))
  = wm_fh st ++ wm_pending st
      ++ map (λ g, metadata_row g.1 g.2) (emitted_runs carry gs)
  ∧ (wm_entry (foldl (λ st ip, wm_step ip.1 ip.2 st) st (expand_groups gs)) = None
     ↔ carry = None ∧ emitted_runs carry gs = []).
Proof.
  revert st carry. induction gs as [|[i qs] gs IH]; intros st carry Hok Hhead Hpend.
  - cbn [expand_groups flat_map foldl emitted_runs map]. rewrite app_nil_r.
    split; [reflexivity|]. unfold wm_pending in Hpend.
    destruct (wm_entry st) as [e|], carry as [c|]; cbn in Hpend;
      try discriminate Hpend.
    + split; [discriminate | intros [? _]; discriminate].
    + split; [auto | reflexivity].
  - cbn [runs_ok fst snd] in Hok. destruct Hok as (Hqs & Hnext & Hok).
    destruct qs as [|q0 rest]; [done|].
    assert (Hne : wm_indiv st ≠ i) by (apply (Hhead (i, q0 :: rest)); reflexivity).
    rewrite expand_groups_cons, foldl_app. cbn [fst snd].
    change (map (pair i) (q0 :: rest)) with ((i, q0) :: map (pair i) rest).
    cbn [foldl fst snd].
    assert (Hfirst : wm_step i q0 st
                     = WmState i (q0 +:+ ",")
                         (match wm_entry st with
                          | Some entry => Some (drop_last entry +:+ nl)
                          | None => None
                          end)
                         (wm_fh st ++ wm_pending st)).
    { unfold wm_step, wm_pending. rewrite (string_eqb_false _ _ Hne).
      destruct (wm_entry st); [reflexivity|]. rewrite app_nil_r. reflexivity. }
    rewrite Hfirst. clear Hfirst.
    set (s1 := WmState i (q0 +:+ ",") _ (wm_fh st ++ wm_pending st)).
    set (s2 := foldl (λ st ip, wm_step ip.1 ip.2 st) s1 (map (pair i) rest)).
    set (carry' := if Nat.leb 2 (length (q0 :: rest)) then Some (i, q0 :: rest)
                   else carry).
    assert (Hs2 : wm_indiv s2 = i ∧ wm_fh s2 = wm_fh st ++ wm_pending st
                  ∧ wm_pending s2
                    = option_list ((λ g, metadata_row g.1 g.2) <$> carry')).
    { unfold s2, carry', s1. destruct rest as [|q1 rest].
      - cbn [map foldl length Nat.leb].
        rewrite wm_pending_flushed. auto.
      - rewrite wm_run by done. cbn [wm_indiv wm_fh wm_protocols length Nat.leb].
        split_and!; [reflexivity | reflexivity |].
        unfold wm_pending. cbn [wm_entry]. rewrite flush_row. reflexivity. }
    destruct Hs2 as (Hi2 & Hfh2 & Hpend2).
    destruct (IH s2 carry' Hok) as [Hfh Hentry].
    { intros g Hg. rewrite Hi2. intros Heq. apply (Hnext g Hg). congruence. }
    { exact Hpend2. }
    cbn [emitted_runs snd]. fold carry'. split.
    + rewrite Hfh, Hfh2, Hpend2, <- !app_assoc. do 2 f_equal.
      destruct carry' as [r|]; reflexivity.
    + rewrite Hentry. destruct carry' as [r|] eqn:Ec.
      * split; [intros [? _]; discriminate | intros [_ ?]; discriminate].
      * unfold carry' in Ec.
        destruct (Nat.leb 2 (length (q0 :: rest))); [discriminate|].
        subst carry. tauto.
Qed.

Lemma wm_final_written (st : wm_state) :
  match wm_entry st with
  | Some entry => wm_fh st ++ [drop_last entry +:+ nl]
  | None => wm_fh st
  end = wm_fh st ++ wm_pending st.
Proof.
  unfold wm_pending. destruct (wm_entry st); [reflexivity|].
  rewrite app_nil_r. reflexivity.
Qed.

(** What [write_metadata] writes and how it ends, on well-formed names. *)
Lemma write_metadata_runs (trio : list string) :
  Forall well_formed_name trio →
  write_metadata trio
  = (metadata_header
       :: map (λ g, metadata_row g.1 g.2) (emitted_runs None (runs (trio_fields trio))),
     match emitted_runs None (runs (trio_fields trio)) with
     | [] => Raised TypeError
     | _ => Returned tt
     end).
Proof.
  intros Hwf.
  destruct (wm_runs (runs (trio_fields trio)) (WmState "" "" None [metadata_header])
              None (runs_are_ok _)) as [Hfh Hentry].
  { intros g Hg. cbn [wm_indiv]. intros Heq.
    assert (Hin : g.1 ∈ map fst (trio_fields trio)).
    { apply runs_ids. destruct (runs (trio_fields trio)); [discriminate|].
      injection Hg as ->. apply elem_of_cons. auto. }
    rewrite <- Heq in Hin. apply elem_of_trio_fields in Hin as (c & _ & Hc).
    apply indiv_of_not_empty in Hc. apply Hc. reflexivity. }
  { reflexivity. }
  rewrite (expand_runs (trio_fields trio)) in Hfh, Hentry.
  unfold write_metadata. rewrite (wm_loop_fields trio _ Hwf).
  cbv beta iota zeta.
  set (st' := foldl _ _ (trio_fields trio)) in *.
  unfold wm_pending in Hfh. cbn [wm_entry wm_fh app] in Hfh.
  destruct (wm_entry st') as [e|].
  - rewrite Hfh.
    destruct (emitted_runs None (runs (trio_fields trio))) eqn:Eem; [|reflexivity].
    exfalso. assert (Hno : Some e = None) by (apply Hentry; auto). discriminate.
  - rewrite app_nil_r in Hfh. rewrite Hfh.
    destruct (proj1 Hentry eq_refl) as [_ ->]. reflexivity.
Qed.

Lemma emitted_runs_elem (carry : option (string * list string))
  (gs : list (string * list string)) (g : string * list string) :
  g ∈ emitted_runs carry gs → carry = Some g ∨ (g ∈ gs ∧ 2 ≤ length g.2).
Proof.
  revert carry. induction gs as [|g0 gs IH]; intros carry; cbn [emitted_runs].
  - intros H. inversion H.
  - destruct (Nat.leb 2 (length g0.2)) eqn:E.
    + apply Nat.leb_le in E. intros Hin. right.
      apply elem_of_cons in Hin as [->|Hin].
      * split; [apply elem_of_cons; auto | exact E].
      * destruct (IH _ Hin) as [[= ->]|[Hg Hlen]].
        -- split; [apply elem_of_cons; auto | exact E].
        -- split; [apply elem_of_cons; auto | exact Hlen].
    + destruct carry as [r|].
      * intros Hin. apply elem_of_cons in Hin as [->|Hin]; [auto|].
        destruct (IH _ Hin) as [?|[Hg Hlen]]; [auto|].
        right. split; [apply elem_of_cons; auto | exact Hlen].
      * intros Hin. destruct (IH _ Hin) as [?|[Hg Hlen]]; [discriminate|].
        right. split; [apply elem_of_cons; auto | exact Hlen].
Qed.

(** X9: on names that have their three fields, whatever their order,
    [write_metadata] writes the header and then one line at the end of each
    run of consecutive names of one individual: the row of that run if it
    has at least two names, otherwise the row of the closest earlier run
    that has, once more, and nothing if there is none.  It returns if at
    least one line was written after the header and raises [TypeError] at
    the final flush otherwise. *)
Theorem write_metadata_run_by_run (trio : list string) :
  Forall well_formed_name trio →
  expand_groups (runs (trio_fields trio)) = trio_fields trio
  ∧ runs_ok (runs (trio_fields trio))
  ∧ write_metadata trio
    = (metadata_header
         :: map (λ g, metadata_row g.1 g.2)
                (emitted_runs None (runs (trio_fields trio))),
       match emitted_runs None (runs (trio_fields trio)) with
       | [] => Raised TypeError
       | _ => Returned tt
       end).
Proof.
  intros Hwf. split; [apply expand_runs|]. split; [apply runs_are_ok|].
  apply write_metadata_runs, Hwf.
Qed.

Lemma write_metadata_run_by_run_witness :
  write_metadata ["trio.A.Capture"; "trio.A.HiC"; "trio.B.HiC"; "trio.C.HiC"]
  = ([metadata_header; "trio.A" +:+ tab +:+ "Capture,HiC" +:+ nl;
      "trio.A" +:+ tab +:+ "Capture,HiC" +:+ nl;
      "trio.A" +:+ tab +:+ "Capture,HiC" +:+ nl], Returned tt).
Proof.
  destruct (write_metadata_run_by_run
              ["trio.A.Capture"; "trio.A.HiC"; "trio.B.HiC"; "trio.C.HiC"])
    as (_ & _ & Hw).
  - repeat constructor; unfold well_formed_name; vm_compute; eauto.
  - rewrite Hw. vm_compute. reflexivity.
Defined.

(** X10: [write_metadata] never writes a row for a run of a single name:
    every line of the file other than the header is the row of a run of at
    least two consecutive names of one individual, with all the protocols
    of that run. *)
Theorem single_entry_never_written (trio : list string) (line : string) :
  Forall well_formed_name trio →
  line ∈ (write_metadata trio).1 →
  line = metadata_header
  ∨ ∃ i qs, (i, qs) ∈ runs (trio_fields trio) ∧ 2 ≤ length qs
            ∧ line = metadata_row i qs.
Proof.
  intros Hwf. rewrite (write_metadata_runs trio Hwf). cbn [fst].
  intros Hin. apply elem_of_cons in Hin as [->|Hin]; [auto|]. right.
  apply list_elem_of_fmap in Hin as ([i qs] & -> & Hg).
  apply emitted_runs_elem in Hg as [?|[Hg Hlen]]; [discriminate|].
  exists i, qs. auto.
Qed.

Lemma single_entry_never_written_witness :
  "trio.A" +:+ tab +:+ "Capture,HiC" +:+ nl = metadata_header
  ∨ ∃ i qs, (i, qs) ∈ runs (trio_fields ["trio.A.Capture"; "trio.A.HiC"; "trio.B.HiC"])
            ∧ 2 ≤ length qs
            ∧ "trio.A" +:+ tab +:+ "Capture,HiC" +:+ nl = metadata_row i qs.
Proof.
  apply (single_entry_never_written ["trio.A.Capture"; "trio.A.HiC"; "trio.B.HiC"]).
  - repeat constructor; unfold well_formed_name; vm_compute; eauto.
  - vm_compute. apply elem_of_cons. right. apply elem_of_cons. auto.
Defined.

(** ** From [write_metadata] to [create_matrice_directory] *)

Lemma string_app_nil_r (a : string) : a +:+ "" = a.
Proof.
  induction a as [|x a IH]; [reflexivity|]. rewrite string_app_cons, IH. reflexivity.
Qed.

Lemma has_no_app (c : ascii) (a b : string) :
  has_no c (a +:+ b) ↔ has_no c a ∧ has_no c b.
Proof. unfold has_no. rewrite list_ascii_of_string_app, not_elem_of_app. tauto. Qed.

Lemma has_no_cons (c x : ascii) (s : string) :
  has_no c (String x s) ↔ x ≠ c ∧ has_no c s.
Proof.
  unfold has_no. cbn [list_ascii_of_string]. rewrite not_elem_of_cons.
  split; intros [H1 H2]; split; auto.
Qed.

Lemma has_no_empty (c : ascii) : has_no c "".
Proof. unfold has_no. apply not_elem_of_nil. Qed.

Lemma has_no_split (sep : ascii) (s : string) : has_no sep s → split sep s = [s].
Proof.
  induction s as [|x s IH]; [reflexivity|].
  rewrite has_no_cons. intros [Hx Hs]. cbn [split].
  rewrite (proj2 (Ascii.eqb_neq x sep) Hx), (IH Hs). reflexivity.
Qed.

Lemma has_no_remove (c : ascii) (s : string) : has_no c s → remove_char c s = s.
Proof.
  induction s as [|x s IH]; [reflexivity|].
  rewrite has_no_cons. intros [Hx Hs]. cbn [remove_char].
  rewrite (proj2 (Ascii.eqb_neq x c) Hx), (IH Hs). reflexivity.
Qed.

Lemma remove_char_app (c : ascii) (a b : string) :
  remove_char c (a +:+ b) = remove_char c a +:+ remove_char c b.
Proof.
  induction a as [|x a IH]; [reflexivity|].
  rewrite string_app_cons. cbn [remove_char].
  destruct (Ascii.eqb x c); [exact IH|]. rewrite string_app_cons, IH. reflexivity.
Qed.

Lemma has_no_join (c : ascii) (sep : string) (l : list string) :
  has_no c sep → Forall (has_no c) l → has_no c (join sep l).
Proof.
  intros Hsep Hl. unfold join. induction Hl as [|x l Hx Hl IH]; [apply has_no_empty|].
  destruct l as [|y l]; [exact Hx|].
  rewrite join_cons_cons, !has_no_app. auto.
Qed.

Lemma has_no_join_inv (c : ascii) (sep : string) (l : list string) :
  has_no c (join sep l) → Forall (has_no c) l.
Proof.
  unfold join. induction l as [|x l IH]; [constructor|].
  destruct l as [|y l].
  - intros Hx. repeat constructor. exact Hx.
  - rewrite join_cons_cons, !has_no_app. intros (Hx & _ & Hrest).
    constructor; [exact Hx | exact (IH Hrest)].
Qed.

Lemma universal_newlines_id (s : string) :
  has_no CR s → universal_newlines s = s.
Proof.
  induction s as [|x s IH]; [reflexivity|].
  rewrite has_no_cons. intros [Hx Hs]. cbn [universal_newlines].
  rewrite (proj2 (Ascii.eqb_neq x CR) Hx), (IH Hs). reflexivity.
Qed.

Lemma file_lines_line (body rest : string) :
  has_no NL body →
  file_lines ((body +:+ nl) +:+ rest) = (body +:+ nl) :: file_lines rest.
Proof.
  induction body as [|x body IH].
  - intros _. reflexivity.
  - rewrite has_no_cons. intros [Hx Hb]. rewrite !string_app_cons.
    cbn [file_lines]. rewrite (proj2 (Ascii.eqb_neq x NL) Hx), (IH Hb). reflexivity.
Qed.

Lemma concat_empty_sep (w : string) (ws : list string) :
  String.concat "" (w :: ws) = w +:+ String.concat "" ws.
Proof.
  destruct ws as [|w' ws]; [symmetry; apply string_app_nil_r|].
  rewrite join_cons_cons. reflexivity.
Qed.

(** Strings that each end with their only newline, and hold no carriage
    return, are read back as they were written. *)
Lemma read_back_lines (written : list string) :
  Forall (λ w, ∃ body, w = body +:+ nl ∧ has_no NL body ∧ has_no CR body) written →
  read_back written = written.
Proof.
  intros Hw. unfold read_back.
  assert (Hcr : has_no CR (String.concat "" written)).
  { induction Hw as [|w ws (body & -> & _ & Hb) _ IH]; [apply has_no_empty|].
    rewrite concat_empty_sep, !has_no_app. split_and!; auto.
    unfold nl. rewrite has_no_cons. split; [discriminate | apply has_no_empty]. }
  rewrite (universal_newlines_id _ Hcr). clear Hcr.
  induction Hw as [|w ws (body & -> & Hb & _) _ IH]; [reflexivity|].
  rewrite concat_empty_sep, file_lines_line by exact Hb. rewrite IH. reflexivity.
Qed.

Lemma startswith_before_char (sep : ascii) (p t rest : string) :
  has_no sep p → startswith (t +:+ String sep rest) p = startswith t p.
Proof.
  revert t. induction p as [|x p IH]; intros t Hp; [reflexivity|].
  apply has_no_cons in Hp as [Hx Hp]. destruct t as [|a t].
  - change ("" +:+ String sep rest) with (String sep rest). cbn [startswith].
    destruct (Ascii.eqb x sep) eqn:E; [|reflexivity].
    apply Ascii.eqb_eq in E. contradiction.
  - rewrite string_app_cons. cbn [startswith]. rewrite IH by exact Hp. reflexivity.
Qed.

(** The protocols of a row, as the collector takes them apart. *)
Lemma split_protocols (qs : list string) :
  qs ≠ [] →
  Forall (λ q, has_no ","%char q ∧ has_no NL q) qs →
  map (remove_char NL) (split ","%char (join "," qs +:+ nl)) = qs.
Proof.
  intros Hne Hqs. unfold join.
  induction Hqs as [|q qs [Hc Hn] Hqs IH]; [done|]. clear Hne.
  destruct qs as [|q' qs].
  - change (String.concat "," [q]) with q.
    rewrite has_no_split.
    + cbn [map]. rewrite remove_char_app, (has_no_remove NL q Hn). 
      change (remove_char NL nl) with "". rewrite string_app_nil_r. reflexivity.
    + rewrite has_no_app. split; [exact Hc|]. unfold nl.
      rewrite has_no_cons. split; [discriminate | apply has_no_empty].
  - rewrite join_cons_cons, !string_app_assoc.
    change ("," +:+ String.concat "," (q' :: qs) +:+ nl)
      with (String "," (String.concat "," (q' :: qs) +:+ nl)).
    rewrite (split_app_sep _ _ _ (has_no_split _ _ Hc)). cbn [map].
    rewrite (has_no_remove NL q Hn), IH by done. reflexivity.
Qed.

(** A row written by [write_metadata] is taken apart by the collector into
    the entries it was made of. *)
Lemma line_pairs_row (i : string) (qs : list string) :
  startswith i "trio" = true → plain i → qs ≠ [] → Forall plain qs →
  line_pairs (metadata_row i qs) = map (pair i) qs
  ∧ line_ok (metadata_row i qs)
  ∧ ∃ body, metadata_row i qs = body +:+ nl ∧ has_no NL body ∧ has_no CR body.
Proof.
  intros Hs (Hit & Hic & Hin & Hir) Hne Hqs.
  assert (Htab : has_no TAB (join "," qs +:+ nl)).
  { rewrite has_no_app. split.
    - apply has_no_join.
      + rewrite has_no_cons. split; [discriminate | apply has_no_empty].
      + eapply Forall_impl; [exact Hqs|]. intros q Hq. apply Hq.
    - unfold nl. rewrite has_no_cons. split; [discriminate | apply has_no_empty]. }
  assert (Hsplit : split TAB (metadata_row i qs) = [i; join "," qs +:+ nl]).
  { unfold metadata_row.
    change (tab +:+ join "," qs +:+ nl) with (String TAB (join "," qs +:+ nl)).
    rewrite (split_app_sep _ _ _ (has_no_split _ _ Hit)).
    rewrite (has_no_split _ _ Htab). reflexivity. }
  assert (Hstart : startswith (metadata_row i qs) "trio" = true).
  { unfold metadata_row. rewrite startswith_row. exact Hs. }
  split; [|split].
  - unfold line_pairs. rewrite Hstart, Hsplit.
    rewrite <- (split_protocols qs Hne) at 2.
    + rewrite map_map. reflexivity.
    + eapply Forall_impl; [exact Hqs|]. intros q Hq. split; apply Hq.
  - intros _. rewrite Hsplit. cbn. eauto.
  - exists (i +:+ tab +:+ join "," qs). split.
    + unfold metadata_row. rewrite !string_app_assoc. reflexivity.
    + split; rewrite !has_no_app.
      * split; [exact Hin|]. split.
        -- unfold tab. rewrite has_no_cons. split; [discriminate | apply has_no_empty].
        -- apply has_no_join.
           ++ rewrite has_no_cons. split; [discriminate | apply has_no_empty].
           ++ eapply Forall_impl; [exact Hqs|]. intros q Hq. apply Hq.
      * split; [exact Hir|]. split.
        -- unfold tab. rewrite has_no_cons. split; [discriminate | apply has_no_empty].
        -- apply has_no_join.
           ++ rewrite has_no_cons. split; [discriminate | apply has_no_empty].
           ++ eapply Forall_impl; [exact Hqs|]. intros q Hq. apply Hq.
Qed.

Lemma name_fields_plain (dir i p : string) :
  well_formed_name dir → startswith dir "trio" = true → plain dir →
  name_fields dir = Some (i, p) →
  startswith i "trio" = true ∧ plain i ∧ plain p.
Proof.
  intros Hwf Hs Hplain Hf.
  assert (Hi : indiv_of dir = Some i ∧ protocol_of dir = Some p).
  { unfold name_fields in Hf. destruct (indiv_of dir); [|discriminate].
    destruct (protocol_of dir); [|discriminate]. injection Hf as -> ->. auto. }
  destruct Hi as [Hi Hp]. split.
  - destruct (well_formed_prefix dir i Hwf Hi) as (_ & _ & rest & _ & Hdir & _).
    rewrite Hdir, string_app_assoc in Hs.
    change ("." +:+ rest) with (String "." rest) in Hs.
    rewrite startswith_before_char in Hs; [exact Hs|].
    unfold has_no. apply (bool_decide_unpack _). vm_compute. exact I.
  - assert (Hall : ∀ c, c ≠ "."%char → has_no c dir → has_no c i ∧ has_no c p).
    { intros c Hc Hno. rewrite <- (join_split "."%char dir) in Hno.
      apply has_no_join_inv in Hno. unfold indiv_of, protocol_of in Hi, Hp.
      destruct (split "."%char dir) as [|t0 [|t1 [|t2 fs]]]; try discriminate.
      injection Hi as <-. injection Hp as <-.
      apply Forall_cons in Hno as [H0 Hno]. apply Forall_cons in Hno as [H1 Hno].
      apply Forall_cons in Hno as [H2 _]. split; [|exact H2].
      rewrite !has_no_app. split_and!; [exact H0 | | exact H1].
      rewrite has_no_cons. split; [congruence | apply has_no_empty]. }
    destruct Hplain as (Ht & Hc & Hn & Hr).
    destruct (Hall TAB ltac:(discriminate) Ht), (Hall ","%char ltac:(discriminate) Hc),
      (Hall NL ltac:(discriminate) Hn), (Hall CR ltac:(discriminate) Hr).
    unfold plain. auto 10.
Qed.

Lemma trio_fields_plain (trio : list string) :
  Forall well_formed_name trio →
  Forall (λ dir, startswith dir "trio" = true) trio →
  Forall plain trio →
  Forall (λ ip, startswith ip.1 "trio" = true ∧ plain ip.1 ∧ plain ip.2)
         (trio_fields trio).
Proof.
  intros Hwf Hs Hp. apply Forall_forall. intros [i p] Hin.
  apply list_elem_of_omap in Hin as (dir & Hdir & Hf).
  rewrite Forall_forall in Hwf, Hs, Hp.
  exact (name_fields_plain dir i p (Hwf _ Hdir) (Hs _ Hdir) (Hp _ Hdir) Hf).
Qed.

Lemma runs_plain (fields : list (string * string)) :
  Forall (λ ip, startswith ip.1 "trio" = true ∧ plain ip.1 ∧ plain ip.2) fields →
  Forall (λ g, startswith g.1 "trio" = true ∧ plain g.1 ∧ g.2 ≠ [] ∧ Forall plain g.2)
         (runs fields).
Proof.
  induction 1 as [|[i p] rest (Hs & Hi & Hp) _ IH]; [constructor|].
  cbn [runs fst snd] in *. destruct (runs rest) as [|[j qs] gs].
  - constructor; [|constructor]. cbn [fst snd].
    split_and!; [exact Hs | exact Hi | discriminate |].
    constructor; [exact Hp | constructor].
  - apply Forall_cons in IH as [(Hjs & Hj & Hne & Hqs) Hgs]. cbn [fst snd] in *.
    destruct (String.eqb i j) eqn:E.
    + apply String.eqb_eq in E as ->. constructor; [|exact Hgs]. cbn [fst snd].
      split_and!; [exact Hs | exact Hi | discriminate |].
      constructor; [exact Hp | exact Hqs].
    + constructor.
      * cbn [fst snd]. split_and!; [exact Hs | exact Hi | discriminate |].
        constructor; [exact Hp | constructor].
      * constructor; [|exact Hgs]. cbn [fst snd]. auto.
Qed.

Lemma emitted_runs_all (carry : option (string * list string))
  (gs : list (string * list string)) :
  Forall (λ g, 2 ≤ length g.2) gs → emitted_runs carry gs = gs.
Proof.
  intros Hall. revert carry.
  induction Hall as [|g gs Hg _ IH]; intros carry; [reflexivity|].
  cbn [emitted_runs]. rewrite (proj2 (Nat.leb_le _ _) Hg), IH. reflexivity.
Qed.

(** The file made of the header and of the rows of a list of runs, read
    back and taken apart by the collector. *)
Lemma rows_read_back (gs : list (string * list string)) :
  Forall (λ g, startswith g.1 "trio" = true ∧ plain g.1 ∧ g.2 ≠ [] ∧ Forall plain g.2) gs →
  read_back (metadata_header :: map (λ g, metadata_row g.1 g.2) gs)
  = metadata_header :: map (λ g, metadata_row g.1 g.2) gs
  ∧ metadata_pairs (metadata_header :: map (λ g, metadata_row g.1 g.2) gs)
    = expand_groups gs
  ∧ Forall line_ok (metadata_header :: map (λ g, metadata_row g.1 g.2) gs).
Proof.
  intros Hgs. split; [|split].
  - apply read_back_lines. constructor.
    + exists ("indiv " +:+ tab +:+ " protocols "). split; [reflexivity|].
      unfold has_no. split; apply (bool_decide_unpack _); vm_compute; exact I.
    + apply Forall_fmap, Forall_forall. intros g Hg.
      rewrite Forall_forall in Hgs. destruct (Hgs g Hg) as (Hs & Hp & Hne & Hqs).
      apply (line_pairs_row g.1 g.2 Hs Hp Hne Hqs).
  - unfold metadata_pairs. cbn [flat_map].
    change (line_pairs metadata_header) with (@nil (string * string)). cbn [app].
    induction Hgs as [|g gs (Hs & Hp & Hne & Hqs) _ IH]; [reflexivity|].
    cbn [map flat_map]. rewrite expand_groups_cons, IH.
    rewrite (proj1 (line_pairs_row g.1 g.2 Hs Hp Hne Hqs)). reflexivity.
  - constructor; [intros H; discriminate H|].
    apply Forall_fmap, Forall_forall. intros g Hg.
    rewrite Forall_forall in Hgs. destruct (Hgs g Hg) as (Hs & Hp & Hne & Hqs).
    apply (line_pairs_row g.1 g.2 Hs Hp Hne Hqs).
Qed.

Lemma emitted_runs_plain (gs : list (string * list string)) :
  Forall (λ g, startswith g.1 "trio" = true ∧ plain g.1 ∧ g.2 ≠ [] ∧ Forall plain g.2) gs →
  Forall (λ g, startswith g.1 "trio" = true ∧ plain g.1 ∧ g.2 ≠ [] ∧ Forall plain g.2)
         (emitted_runs None gs).
Proof.
  rewrite !Forall_forall. intros Hgs g Hg.
  apply emitted_runs_elem in Hg as [?|[Hg _]]; [discriminate | auto].
Qed.

(** X11: when the names start with [trio], have their three fields and hold
    no tab, comma, newline or carriage return, the file written by
    [write_metadata], opened again for reading (the collector opens
    [hic_dir + 'metadata.tsv'], the file written when [hic_dir] ends with a
    slash), is read back line by line as it was written, every
    line can be taken apart by the collector, and the (individual,
    protocol) pairs the collector gets from it are the entries of the runs
    whose rows were written, in order. *)
Theorem metadata_read_back (trio : list string) :
  Forall well_formed_name trio →
  Forall (λ dir, startswith dir "trio" = true) trio →
  Forall plain trio →
  read_back (write_metadata trio).1 = (write_metadata trio).1
  ∧ Forall line_ok (read_back (write_metadata trio).1)
  ∧ metadata_pairs (read_back (write_metadata trio).1)
    = expand_groups (emitted_runs None (runs (trio_fields trio))).
Proof.
  intros Hwf Hs Hp. rewrite (write_metadata_runs trio Hwf). cbn [fst].
  destruct (rows_read_back (emitted_runs None (runs (trio_fields trio))))
    as (Hread & Hpairs & Hok).
  { apply emitted_runs_plain, runs_plain, trio_fields_plain; assumption. }
  rewrite Hread. auto.
Qed.

Lemma metadata_read_back_witness :
  metadata_pairs (read_back (write_metadata ["trio.A.Capture"; "trio.A.HiC"]).1)
  = [("trio.A", "Capture"); ("trio.A", "HiC")].
Proof.
  destruct (metadata_read_back ["trio.A.Capture"; "trio.A.HiC"]) as (_ & _ & Hpairs).
  - repeat constructor; unfold well_formed_name; vm_compute; eauto.
  - repeat constructor.
  - repeat constructor; unfold has_no; apply (bool_decide_unpack _); vm_compute;
      exact I.
  - rewrite Hpairs. vm_compute. reflexivity.
Defined.

(** X12: with such names (and no NUL character in them or in [wdir]), if
    moreover every run of consecutive names of one individual has at least
    two names, [write_metadata] returns and the lines of the file it wrote
    give one (individual, protocol) pair per name, in the order of the
    names.  [write_metadata] writes [hic_dir + '/metadata.tsv'] and the
    collector opens [hic_dir + 'metadata.tsv']: if the file the collector
    opens holds what was written, the collector returns the mapping that
    results from scanning the names in that order, and if there is no such
    file it raises the [OSError] of [open]; for a name with exactly three
    fields the directory scanned is [wdir/name/hic_results/matrix/h5df/]. *)
Theorem pipeline_scans_every_name (read_file : string → option (list string))
  (listdir : string → option (list string)) (wdir hic_dir : string)
  (trio : list string) :
  trio ≠ [] →
  Forall well_formed_name trio →
  Forall (λ dir, startswith dir "trio" = true) trio →
  Forall plain trio →
  has_no NUL wdir → Forall (has_no NUL) trio →
  Forall (λ g, 2 ≤ length g.2) (runs (trio_fields trio)) →
  ∃ written,
    write_metadata trio = (written, Returned tt)
    ∧ metadata_pairs (read_back written) = trio_fields trio
    ∧ (read_file (hic_dir +:+ "metadata.tsv") = Some (read_back written) →
       collect_from_metadata_file read_file listdir wdir hic_dir
       = Returned (foldl (assign_protocol listdir wdir) RES_DIC_init
                         (trio_fields trio)))
    ∧ (read_file (hic_dir +:+ "metadata.tsv") = None →
       collect_from_metadata_file read_file listdir wdir hic_dir = Raised OSError)
    ∧ ∀ name t0 t1 t2,
        name ∈ trio → split "."%char name = [t0; t1; t2] →
        name_fields name = Some (t0 +:+ "." +:+ t1, t2)
        ∧ results_dir wdir (t0 +:+ "." +:+ t1) t2
          = wdir +:+ (name +:+ "/") +:+ h5_path.
Proof.
  intros Hne Hwf Hs Hp _ _ Htwo.
  pose proof (write_metadata_runs trio Hwf) as Hw.
  rewrite (emitted_runs_all None _ Htwo) in Hw.
  destruct (rows_read_back (runs (trio_fields trio))) as (Hread & Hpairs & Hok).
  { apply runs_plain, trio_fields_plain; assumption. }
  rewrite expand_runs in Hpairs.
  eexists. split; [|split; [|split; [|split]]].
  - rewrite Hw. f_equal.
    destruct (runs (trio_fields trio)) as [|g gs] eqn:Er; [|reflexivity].
    exfalso. pose proof (expand_runs (trio_fields trio)) as Hexp.
    rewrite Er in Hexp. destruct trio as [|a l]; [done|].
    apply Forall_cons in Hwf as [Ha _].
    destruct (name_fields_well_formed a Ha) as (i & p & Hf & _).
    rewrite (trio_fields_cons a l i p Hf) in Hexp. discriminate.
  - rewrite Hread. exact Hpairs.
  - unfold collect_from_metadata_file. intros ->.
    rewrite Hread, create_matrice_directory_eq by exact Hok.
    rewrite Hpairs. reflexivity.
  - unfold collect_from_metadata_file. intros ->. reflexivity.
  - intros name t0 t1 t2 _ Hsplit. split.
    + unfold name_fields, indiv_of, protocol_of. rewrite Hsplit. reflexivity.
    + unfold results_dir. rewrite <- (join_split "."%char name), Hsplit.
      unfold join.
      rewrite (join_cons_cons "." t0 t1 [t2]), (join_cons_cons "." t1 t2 []).
      change (String.concat "." [t2]) with t2.
      rewrite !string_app_assoc. reflexivity.
Qed.

Lemma pipeline_scans_every_name_witness :
  ∃ written,
    write_metadata ["trio.A.Capture"; "trio.A.HiC"] = (written, Returned tt)
    ∧ collect_from_metadata_file
        (λ path, if String.eqb path "hic/metadata.tsv"
                 then Some (read_back written) else None)
        no_results_dir "/w/" "hic/"
      = Returned (foldl (assign_protocol no_results_dir "/w/") RES_DIC_init
                        [("trio.A", "Capture"); ("trio.A", "HiC")]).
Proof.
  destruct (pipeline_scans_every_name
              (λ path, if String.eqb path "hic/metadata.tsv"
                       then Some (read_back
                                    (write_metadata ["trio.A.Capture"; "trio.A.HiC"]).1)
                       else None)
              no_results_dir "/w/" "hic/" ["trio.A.Capture"; "trio.A.HiC"])
    as (written & Hw & _ & Hc & _).
  - discriminate.
  - repeat constructor; unfold well_formed_name; vm_compute; eauto.
  - repeat constructor.
  - repeat constructor; unfold has_no; apply (bool_decide_unpack _); vm_compute;
      exact I.
  - unfold has_no. apply (bool_decide_unpack _). vm_compute. exact I.
  - repeat constructor; unfold has_no; apply (bool_decide_unpack _); vm_compute;
      exact I.
  - vm_compute. repeat constructor.
  - exists written. split; [exact Hw|].
    assert (Hwr : written = (write_metadata ["trio.A.Capture"; "trio.A.HiC"]).1)
      by (rewrite Hw; reflexivity).
    rewrite Hwr. apply Hc. rewrite Hwr. reflexivity.
Defined.

(** ** [make_subdir]: what it leaves alone *)

Lemma make_subdir_present {T : Type} `{!FileSystem T} (hic_dir : string)
  (trio : list string) (w : world T) :
  (∀ dir sp, dir ∈ trio → split "."%char dir !! 1%nat = Some sp →
             path_exists (hic_dir +:+ sp) (w_fs w) = true) →
  w_fs (make_subdir hic_dir trio w).1 = w_fs w
  ∧ w_shell (make_subdir hic_dir trio w).1 = w_shell w.
Proof.
  revert w. induction trio as [|a rest IH]; intros w Hall; cbn [make_subdir];
    [auto|].
  unfold ms_body. destruct (split "."%char a !! 1%nat) as [sp|] eqn:Hsp; [|auto].
  cbv zeta. rewrite (Hall a sp) by (auto; apply elem_of_cons; auto).
  cbn [negb].
  set (w1 := World (w_fs w) (w_stdout w ++ [(hic_dir +:+ sp) +:+ " already exists"])
               (w_shell w)).
  destruct (IH w1) as [Hfs Hsh]; [|auto].
  intros dir sp' Hdir Hsp'. apply (Hall dir sp'); [apply elem_of_cons; auto | exact Hsp'].
Qed.

(** X13: [make_subdir] never removes a path, and where the directory of
    every name is already there it leaves the file system as it is and
    gives no command to the shell. *)
Theorem make_subdir_leaves_alone {T : Type} `{!FileSystem T}
  (hic_dir : string) (trio : list string) (w w' : world T) (r : result unit) :
  make_subdir hic_dir trio w = (w', r) →
  (∀ q, path_exists q (w_fs w) = true → path_exists q (w_fs w') = true)
  ∧ ((∀ dir sp, dir ∈ trio → split "."%char dir !! 1%nat = Some sp →
                path_exists (hic_dir +:+ sp) (w_fs w) = true) →
     w_fs w' = w_fs w ∧ w_shell w' = w_shell w).
Proof.
  intros Hrun. split.
  - intros q. eapply make_subdir_keeps. exact Hrun.
  - intros Hall. pose proof (make_subdir_present hic_dir trio w Hall) as Hp.
    rewrite Hrun in Hp. exact Hp.
Qed.

Lemma make_subdir_leaves_alone_witness :
  ∃ w' : world (gset string),
    make_subdir "hic/" ["trio.A.HiC"; "trio.A.Cap"] (World {[ "hic/A" ]} [] [])
    = (w', Returned tt)
    ∧ w_fs w' = {[ "hic/A" ]} ∧ w_shell w' = [].
Proof.
  destruct (make_subdir "hic/" ["trio.A.HiC"; "trio.A.Cap"]
              (World ({[ "hic/A" ]} : gset string) [] [])) as [w' r] eqn:Hrun.
  destruct (make_subdir_leaves_alone "hic/" ["trio.A.HiC"; "trio.A.Cap"]
              (World ({[ "hic/A" ]} : gset string) [] []) w' r Hrun) as [_ Hsame].
  destruct Hsame as [Hfs Hsh].
  { intros dir sp Hdir Hsp. cbn [w_fs].
    repeat (apply elem_of_cons in Hdir as [->|Hdir];
            [vm_compute in Hsp; injection Hsp as <-; vm_compute; reflexivity|]).
    inversion Hdir. }
  exists w'. split; [|auto].
  vm_compute in Hrun. injection Hrun as <- <-. reflexivity.
Defined.
